(** * go-mysqlstack, driver/session.go: the session's write path and teardown

  A shallow embedding of [driver.Session]: the result writer
  ([writeFields], [writeRows], [writeFinish], [flush], [writeResult]),
  the error writer ([writeErrFromError]), [Close] and the accessors.

  Go's [error] results are [option error] ([None] is [nil]); the methods
  of [*Session] mutate the session through its pointer, here they pass the
  session explicitly.  The packages the file imports ([common], [sqltypes],
  [sqldb], [proto], [packet]) are modelled at the interface the file uses. *)

From Stdlib Require Import String Ascii ZArith List Bool Arith Lia.
Import ListNotations.
Open Scope Z_scope.

(** ** Bytes *)

Definition byte := Z.
Definition bytes := list byte.

(** [n] bytes of [v], least significant first. *)
Fixpoint le_bytes (n : nat) (v : Z) : bytes :=
  match n with
  | O => []
  | S n' => Z.land v 255 :: le_bytes n' (Z.shiftr v 8)
  end.

(** The value of little-endian bytes. *)
Fixpoint le_value (bs : bytes) : Z :=
  match bs with
  | [] => 0
  | b :: bs' => b + 256 * le_value bs'
  end.

(** ** package fmt: the two call shapes the file uses *)

Module fmt.

Open Scope string_scope.

(** Where the scanner of a format stands: in literal text, or inside a
    directive after its [%]. *)
Inductive place :=
| Text | Flags | Width | AfterWidth | PrecStart | Prec | AfterPrec.

Definition is_flag (c : ascii) : bool :=
  (c =? "#")%char || (c =? "0")%char || (c =? "+")%char
  || (c =? "-")%char || (c =? " ")%char.

Definition is_digit (c : ascii) : bool :=
  let n := nat_of_ascii c in (48 <=? n)%nat && (n <=? 57)%nat.

(** A verb with no operand left: [%%] is a percent sign, any other verb
    prints as missing. *)
Definition verb (c : ascii) : string :=
  if (c =? "%")%char then "%"
  else "%!" ++ String c "(MISSING)".

(** [fmt.Sprintf(format)] with no operand: literal text is copied, and
    every directive (flags, width, precision, verb) prints Go's error
    text for it.  Explicit argument indexes ([%[1]d]), widths over 10^6
    and verbs outside ASCII are outside this model. *)
Fixpoint doPrintf (st : place) (format : string) : string :=
  match format with
  | EmptyString =>
      match st with Text => "" | _ => "%!(NOVERB)" end
  | String c rest =>
      match st with
      | Text =>
          if (c =? "%")%char then doPrintf Flags rest
          else String c (doPrintf Text rest)
      | Flags =>
          if is_flag c then doPrintf Flags rest
          else if (c =? "*")%char then "%!(BADWIDTH)" ++ doPrintf AfterWidth rest
          else if is_digit c then doPrintf Width rest
          else if (c =? ".")%char then doPrintf PrecStart rest
          else verb c ++ doPrintf Text rest
      | Width =>
          if is_digit c then doPrintf Width rest
          else if (c =? ".")%char then doPrintf PrecStart rest
          else verb c ++ doPrintf Text rest
      | AfterWidth =>
          if (c =? ".")%char then doPrintf PrecStart rest
          else verb c ++ doPrintf Text rest
      | PrecStart =>
          if (c =? "*")%char then "%!(BADPREC)" ++ doPrintf AfterPrec rest
          else if is_digit c then doPrintf Prec rest
          else verb c ++ doPrintf Text rest
      | Prec =>
          if is_digit c then doPrintf Prec rest
          else verb c ++ doPrintf Text rest
      | AfterPrec => verb c ++ doPrintf Text rest
      end
  end.

(** A format with its operands, as session.go passes them on: the format
    ["%v"] with one operand (a string or an error, given by its text), or
    a format alone. *)
Inductive call :=
| V (operand : string)
| Bare (format : string).

Definition Sprintf (c : call) : string :=
  match c with
  | V operand => operand
  | Bare format => doPrintf Text format
  end.

(** No percent sign in the text. *)
Fixpoint plain (s : string) : bool :=
  match s with
  | EmptyString => true
  | String c rest => negb (c =? "%")%char && plain rest
  end.

End fmt.

(** ** package common: the row buffer *)

Module common.

(** Modelled from the spec: common.Buffer is not under src/.  The spec
    names "a single null marker token" and "a length-prefixed raw-bytes
    encoding"; they are the wire protocol's 0xfb and its length-encoded
    integer followed by the bytes.  A buffer is the bytes written so far. *)
Definition Buffer := bytes.

Definition NewBuffer (cap : Z) : Buffer := [].

Definition Datas (b : Buffer) : bytes := b.

Definition WriteU8 (b : Buffer) (v : Z) : Buffer := b ++ le_bytes 1 v.

Definition WriteBytes (b : Buffer) (v : bytes) : Buffer := b ++ v.

(** The length-encoded integer of a uint64. *)
Definition lenenc (v : Z) : bytes :=
  if v <? 251 then le_bytes 1 v
  else if v <? Z.shiftl 1 16 then 252 :: le_bytes 2 v
  else if v <? Z.shiftl 1 24 then 253 :: le_bytes 3 v
  else 254 :: le_bytes 8 v.

Definition WriteLenEncode (b : Buffer) (v : Z) : Buffer := b ++ lenenc v.

Definition WriteLenEncodeNUL (b : Buffer) : Buffer := WriteU8 b 251.

Definition WriteLenEncodeBytes (b : Buffer) (v : bytes) : Buffer :=
  WriteBytes (WriteLenEncode b (Z.of_nat (List.length v))) v.

End common.

(** ** package sqltypes: values and results *)

Module sqltypes.

(** Modelled from the spec: sqltypes.Value is not under src/; a row holds
    "nullable raw-encoded values".  [IsNull] and [Raw] are the two methods
    session.go calls on one. *)
Record Value := mkValue { IsNull : bool; Raw : bytes }.

Definition NULL : Value := mkValue true [].
Definition MakeRaw (b : bytes) : Value := mkValue false b.

(** Modelled from the spec: the column descriptor (querypb.Field) is not
    under src/; it is "name, type, flags". *)
Record Field := mkField { Name : string; Type_ : Z; Flags : Z }.

(** The four states the [switch] of [writeResult] names. *)
Inductive ResultState :=
| RState_None | RState_Fields | RState_Rows | RState_Finished.

(** Modelled from the spec: sqltypes.Result is not under src/; these are
    the fields session.go reads. *)
Record Result := mkResult {
  Fields : list Field;
  RowsAffected : Z;
  InsertID : Z;
  Warnings : Z;
  Rows : list (list Value);
  State : ResultState
}.

End sqltypes.

(** ** package sqldb: protocol errors and constants *)

Module sqldb.

Record SQLError := mkSQLError { Num : Z; State : string; Message : string }.

(** Modelled from the spec: the constants of sqldb are not under src/.
    The deprecate-EOF capability is the protocol's bit 24; the generic
    "unknown error" is code 1105 with state HY000. *)
Definition CLIENT_DEPRECATE_EOF : Z := Z.shiftl 1 24.
Definition ER_UNKNOWN_ERROR : Z := 1105.
Definition SQLSTATE_UNKNOWN : string := "HY000".

(** [NewSQLError(number, format, args...)]: the code and state of the
    number and the formatted message.  session.go passes
    [ER_UNKNOWN_ERROR] only, whose code and state are the generic ones. *)
Definition NewSQLError (number : Z) (f : fmt.call) : SQLError :=
  mkSQLError ER_UNKNOWN_ERROR SQLSTATE_UNKNOWN (fmt.Sprintf f).

End sqldb.

(** Go's [error] values: a [*sqldb.SQLError], or any other error, known by
  the text its [Error()] returns. *)
Inductive error :=
| SQLErr (se : sqldb.SQLError)
| ErrorString (text : string).


(** ** package proto: what the handshake leaves in the session *)

Module proto.

(** Modelled from the spec: proto.Auth and proto.Greeting are not under
    src/; the session reads the negotiated flags, user, response and
    character set of the one, the status and salt of the other. *)
Record Auth := mkAuth {
  ClientFlags : Z;
  User : string;
  AuthResponse : bytes;
  Charset : Z
}.

Record Greeting := mkGreeting { Status : Z; Salt : bytes }.

End proto.

(** ** package packet: the frame writer *)

Module packet.

(** Modelled from the spec: packet.Packets is not under src/.  The spec
    lists its operations (section 6): the append operations buffer, flush
    hands the buffered packets to the transport as one batch; the two
    Write operations of the source (WriteOK, WriteERR) send their packet at
    once.  A packet is kept by its kind and the values it carries; the
    byte layout of a frame belongs to the writer and is not modelled. *)
Inductive Packet :=
| ColumnDef (f : sqltypes.Field)
| EOF
| Payload (datas : bytes)
| OK (rowsAffected insertID status warnings : Z)
| OKWithEOFHeader (rowsAffected insertID status warnings : Z)
| ERR (errorCode : Z) (sqlState message : string).

(** The operations of the writer, as names in the log of calls. *)
Inductive Call :=
| CallAppendColumns | CallAppendEOF | CallAppend | CallAppendOKWithEOFHeader
| CallWriteOK | CallWriteERR | CallFlush.

(** Modelled from the spec: the state of packet.Packets.  The packets
    appended and not yet flushed, the batches handed to the transport
    (oldest first), the outcome the transport has in store for each coming
    call ([Some e]: that call fails with [e]; past the end of the list
    every call succeeds), and the calls made so far. *)
Record Packets := mkPackets {
  buffered : list Packet;
  wire : list (list Packet);
  outcomes : list (option error);
  calls : list Call
}.

Definition NewPackets (outcomes : list (option error)) : Packets :=
  mkPackets [] [] outcomes [].

(** Every packet that reached the transport, in order. *)
Definition stream (p : Packets) : list Packet := concat (wire p).

Definition push (ps : list Packet) (p : Packets) : Packets :=
  mkPackets (buffered p ++ ps) (wire p) (outcomes p) (calls p).

Definition send (ps : list Packet) (p : Packets) : Packets :=
  mkPackets (buffered p) (wire p ++ [ps]) (outcomes p) (calls p).

Definition drain (p : Packets) : Packets :=
  mkPackets [] (wire p ++ [buffered p]) (outcomes p) (calls p).

(** One call on the writer: it is logged and takes the next outcome; a
    failing call returns its error and leaves the packets as they were. *)
Definition invoke (c : Call) (effect : Packets -> Packets)
  (p : Packets) : option error * Packets :=
  let p' := mkPackets (buffered p) (wire p) (tl (outcomes p)) (calls p ++ [c]) in
  match hd None (outcomes p) with
  | Some e => (Some e, p')
  | None => (None, effect p')
  end.

(** Modelled from the spec: the operations of packet.Packets that
    session.go calls, with the arguments it passes.  [AppendColumns]
    appends one packet per column descriptor, in order; [AppendEOF], which
    takes no argument, the legacy terminal marker; [Append] a packet with
    the given payload; [AppendOKWithEOFHeader] the OK-shaped terminal. *)
Definition AppendColumns (columns : list sqltypes.Field) :=
  invoke CallAppendColumns (push (map ColumnDef columns)).

Definition AppendEOF := invoke CallAppendEOF (push [EOF]).

Definition Append (payload : bytes) := invoke CallAppend (push [Payload payload]).

Definition AppendOKWithEOFHeader (rowsAffected insertID status warnings : Z) :=
  invoke CallAppendOKWithEOFHeader
    (push [OKWithEOFHeader rowsAffected insertID status warnings]).

(** Modelled from the spec: [WriteOK] sends one OK packet at once. *)
Definition WriteOK (rowsAffected insertID status warnings : Z) :=
  invoke CallWriteOK (send [OK rowsAffected insertID status warnings]).

(** Modelled from the spec: [WriteERR] sends one error packet at once.
    session.go calls it as [WriteERR(errorCode, sqlState, format, args...)]:
    the message is the format applied to the operands. *)
Definition WriteERR (errorCode : Z) (sqlState : string) (f : fmt.call) :=
  invoke CallWriteERR (send [ERR errorCode sqlState (fmt.Sprintf f)]).

(** Modelled from the spec: [Flush] hands the buffer to the transport. *)
Definition Flush := invoke CallFlush drain.

(** The transport has no failure in store. *)
Definition healthy (p : Packets) : Prop := Forall (fun o => o = None) (outcomes p).

(** The packets that end a result's row stream. *)
Definition is_terminal (k : Packet) : bool :=
  match k with
  | EOF | OKWithEOFHeader _ _ _ _ => true
  | _ => false
  end.

Definition is_column (k : Packet) : bool :=
  match k with ColumnDef _ => true | _ => false end.

Definition is_row (k : Packet) : bool :=
  match k with Payload _ => true | _ => false end.

End packet.

(** ** package driver: the session *)

Module driver.

Import sqltypes proto packet.

(** [net.Conn], by the address of its peer. *)
Record Conn := mkConn { RemoteAddr : string }.

(** The session's fields but its lock [mu], which is part of the threads'
    model ([Threads]); [conn] is [None] when the Go field is [nil]. *)
Record Session := mkSession {
  id : Z;
  conn : option Conn;
  schema : string;
  auth : Auth;
  packets : Packets;
  greeting : Greeting
}.

Definition newSession (ID : Z) (c : Conn) (a : Auth) (g : Greeting)
  (outcomes : list (option error)) : Session :=
  mkSession ID (Some c) EmptyString a (NewPackets outcomes) g.

Definition set_packets (s : Session) (p : Packets) : Session :=
  mkSession (id s) (conn s) (schema s) (auth s) p (greeting s).

Definition set_conn (s : Session) (c : option Conn) : Session :=
  mkSession (id s) c (schema s) (auth s) (packets s) (greeting s).

Definition set_schema (s : Session) (v : string) : Session :=
  mkSession (id s) (conn s) v (auth s) (packets s) (greeting s).

(** A method of [*Session] that returns an [error]. *)
Definition M := Session -> option error * Session.

(** [return nil] and [return err]. *)
Definition ok : M := fun s => (None, s).
Definition fail (e : error) : M := fun s => (Some e, s).

(** [if err := m; err != nil { return err }], then [k]. *)
Definition andThen (m k : M) : M :=
  fun s =>
    match m s with
    | (Some e, s') => (Some e, s')
    | (None, s') => k s'
    end.

Notation "m ;; k" := (andThen m k) (at level 61, right associativity).

(** A call on [s.packets]. *)
Definition on_packets (op : Packets -> option error * Packets) : M :=
  fun s => let (e, p) := op (packets s) in (e, set_packets s p).

Definition writeFields (result : Result) : M :=
  on_packets (AppendColumns (Fields result)) ;;
  fun s =>
    if Z.land (ClientFlags (auth s)) sqldb.CLIENT_DEPRECATE_EOF =? 0
    then on_packets AppendEOF s
    else ok s.

(** The inner loop of [writeRows]: the buffer of one row. *)
Definition rowBuf (row : list Value) : common.Buffer :=
  fold_left
    (fun buf val =>
       if IsNull val then common.WriteLenEncodeNUL buf
       else common.WriteLenEncodeBytes buf (Raw val))
    row (common.NewBuffer 16).

(** The outer loop of [writeRows]. *)
Fixpoint appendRows (rows : list (list Value)) : M :=
  match rows with
  | [] => ok
  | row :: rest =>
      on_packets (Append (common.Datas (rowBuf row))) ;; appendRows rest
  end.

Definition writeRows (result : Result) : M := appendRows (Rows result).

Definition writeFinish (result : Result) : M :=
  fun s =>
    if Z.land (ClientFlags (auth s)) sqldb.CLIENT_DEPRECATE_EOF =? 0
    then on_packets AppendEOF s
    else on_packets
           (AppendOKWithEOFHeader (RowsAffected result) (InsertID result)
              (Status (greeting s)) (Warnings result)) s.

Definition flush : M := on_packets Flush.

Section WriteResult.

(** [fmt]'s rendering of a [*sqltypes.Result] under the verb [%+v]. *)
Variable sprint_result : Result -> string.

Definition unexpected (result : Result) : error :=
  ErrorString
    ("unexpected: result.without.no.fields.but.has.rows.result:"
       ++ sprint_result result)%string.

Definition writeResult (result : Result) : M :=
  if (List.length (Fields result) =? 0)%nat then
    match State result with
    | RState_None =>
        fun s =>
          on_packets
            (WriteOK (RowsAffected result) (InsertID result)
               (Status (greeting s)) (Warnings result)) s
    | _ => fail (unexpected result)
    end
  else
    match State result with
    | RState_None =>
        writeFields result ;; writeRows result ;; writeFinish result ;; flush
    | RState_Fields => writeFields result ;; flush
    | RState_Rows => writeRows result ;; flush
    | RState_Finished => writeFinish result ;; flush
    end.

(** A request handler's calls of [writeResult], one after the other, up
    to the first that fails. *)
Fixpoint writeResults (results : list Result) : M :=
  match results with
  | [] => ok
  | r :: rest => writeResult r ;; writeResults rest
  end.

End WriteResult.

Definition writeErrFromError (err : error) : M :=
  match err with
  | SQLErr se =>
      on_packets
        (WriteERR (sqldb.Num se) (sqldb.State se) (fmt.V (sqldb.Message se)))
  | ErrorString text =>
      let unknow := sqldb.NewSQLError sqldb.ER_UNKNOWN_ERROR (fmt.V text) in
      on_packets
        (WriteERR (sqldb.Num unknow) (sqldb.State unknow)
           (fmt.Bare (sqldb.Message unknow)))
  end.

(** [Close], with the transports on which it called [Close()]. *)
Definition Close (s : Session) : Session * list Conn :=
  match conn s with
  | Some c => (set_conn s None, [c])
  | None => (s, [])
  end.

(** [n] calls of [Close] in a row, with all the transports closed. *)
Fixpoint CloseTimes (n : nat) (s : Session) : Session * list Conn :=
  match n with
  | O => (s, [])
  | S n' =>
      let (s1, closed1) := Close s in
      let (s2, closed2) := CloseTimes n' s1 in
      (s2, closed1 ++ closed2)
  end.

Definition ID (s : Session) : Z := id s.

Definition Addr (s : Session) : string :=
  match conn s with
  | Some c => RemoteAddr c
  | None => "unknow"%string
  end.

Definition SetSchema (s : Session) (v : string) : Session := set_schema s v.

Definition Schema (s : Session) : string := schema s.

Definition User (s : Session) : string := proto.User (auth s).

Definition Salt (s : Session) : bytes := proto.Salt (greeting s).

Definition Scramble (s : Session) : bytes := proto.AuthResponse (auth s).

Definition Charset (s : Session) : Z := proto.Charset (auth s).

(** The packets a method appends to the buffer when it runs from [s], and
    the batches it hands to the transport. *)
Definition appended (m : M) (s : Session) : list Packet :=
  skipn (List.length (buffered (packets s))) (buffered (packets (snd (m s)))).

Definition sent (m : M) (s : Session) : list (list Packet) :=
  skipn (List.length (wire (packets s))) (wire (packets (snd (m s)))).

(** The calls a method makes on the writer when it runs from [s]. *)
Definition called (m : M) (s : Session) : list Call :=
  skipn (List.length (calls (packets s))) (calls (packets (snd (m s)))).

End driver.

(** ** The session's lock and the threads that call its methods

    Each method is the list of its steps between taking [s.mu] and the
    deferred release; threads interleave step by step. *)

Module Threads.

(** [sync.RWMutex]: the number of readers inside, and whether the writer
    is inside. *)
Record RWMutex := mkRWMutex { readers : nat; writer : bool }.

Inductive Instr :=
| RLock | RUnlock | Lock | Unlock
| IfConnNil (skip : nat)
| ConnClose | ConnClear | ConnRemoteAddr
| SchemaStore (v : string)
| FieldLoad.

(** The shared state: the lock, whether [s.conn] is non-nil, the number of
    [Close()] calls the transport received, the schema, the number of nil
    dereferences, and what is left of each thread's method. *)
Record State := mkState {
  mu : RWMutex;
  conn : bool;
  closes : nat;
  schema : string;
  panics : nat;
  threads : list (list Instr)
}.

(** The methods of session.go. *)
Definition Close : list Instr :=
  [RLock; IfConnNil 2; ConnClose; ConnClear; RUnlock].

Definition Addr : list Instr :=
  [RLock; IfConnNil 1; ConnRemoteAddr; RUnlock].

Definition SetSchema (v : string) : list Instr :=
  [Lock; SchemaStore v; Unlock].

(** [ID], [Schema], [User], [Salt], [Scramble], [Charset]. *)
Definition Getter : list Instr := [RLock; FieldLoad; RUnlock].

Definition start (open : bool) (pool : list (list Instr)) : State :=
  mkState (mkRWMutex 0 false) open 0 EmptyString 0 pool.

Fixpoint update {A : Type} (i : nat) (x : A) (l : list A) : list A :=
  match l, i with
  | [], _ => []
  | _ :: t, O => x :: t
  | h :: t, S i' => h :: update i' x t
  end.

(** One step on the shared state; [None] when the step has to wait. *)
Definition exec (ins : Instr) (st : State) : option State :=
  let m := mu st in
  match ins with
  | RLock =>
      if writer m then None
      else Some (mkState (mkRWMutex (S (readers m)) false)
                   (conn st) (closes st) (schema st) (panics st) (threads st))
  | RUnlock =>
      Some (mkState (mkRWMutex (pred (readers m)) (writer m))
              (conn st) (closes st) (schema st) (panics st) (threads st))
  | Lock =>
      if writer m || negb (readers m =? 0)%nat then None
      else Some (mkState (mkRWMutex 0 true)
                   (conn st) (closes st) (schema st) (panics st) (threads st))
  | Unlock =>
      Some (mkState (mkRWMutex (readers m) false)
              (conn st) (closes st) (schema st) (panics st) (threads st))
  | IfConnNil _ => Some st
  | ConnClose =>
      if conn st
      then Some (mkState m true (S (closes st)) (schema st) (panics st) (threads st))
      else Some (mkState m false (closes st) (schema st) (S (panics st)) (threads st))
  | ConnClear =>
      Some (mkState m false (closes st) (schema st) (panics st) (threads st))
  | ConnRemoteAddr =>
      if conn st then Some st
      else Some (mkState m false (closes st) (schema st) (S (panics st)) (threads st))
  | SchemaStore v =>
      Some (mkState m (conn st) (closes st) v (panics st) (threads st))
  | FieldLoad => Some st
  end.

(** What is left of a thread after its step [ins]: the guard
    [if s.conn != nil] skips its body when the field is nil. *)
Definition continue (ins : Instr) (st : State) (rest : list Instr) : list Instr :=
  match ins with
  | IfConnNil n => if conn st then rest else skipn n rest
  | _ => rest
  end.

(** Thread [i] takes its next step; [None] when it has none or waits. *)
Definition step (i : nat) (st : State) : option State :=
  match nth_error (threads st) i with
  | Some (ins :: rest) =>
      match exec ins st with
      | Some st' =>
          Some (mkState (mu st') (conn st') (closes st') (schema st') (panics st')
                  (update i (continue ins st rest) (threads st')))
      | None => None
      end
  | _ => None
  end.

(** A schedule: which thread steps next. *)
Fixpoint run (schedule : list nat) (st : State) : option State :=
  match schedule with
  | [] => Some st
  | i :: rest =>
      match step i st with
      | Some st' => run rest st'
      | None => None
      end
  end.

(** The lock a thread holds, read off what is left of its methods: the
    next lock operation it will make tells. *)
Inductive Mode := Outside | Reading | Writing.

Definition Mode_eqb (a b : Mode) : bool :=
  match a, b with
  | Outside, Outside | Reading, Reading | Writing, Writing => true
  | _, _ => false
  end.

Fixpoint holds (prog : list Instr) : Mode :=
  match prog with
  | [] => Outside
  | RUnlock :: _ => Reading
  | Unlock :: _ => Writing
  | RLock :: _ | Lock :: _ => Outside
  | _ :: rest => holds rest
  end.

Definition is_lock_op (i : Instr) : bool :=
  match i with
  | RLock | RUnlock | Lock | Unlock => true
  | _ => false
  end.

(** A program that, started in mode [m], releases what it took and in the
    mode it took it, and whose guards skip no lock operation. *)
Fixpoint well_locked (m : Mode) (prog : list Instr) : bool :=
  match prog with
  | [] => Mode_eqb m Outside
  | RLock :: rest => Mode_eqb m Outside && well_locked Reading rest
  | RUnlock :: rest => Mode_eqb m Reading && well_locked Outside rest
  | Lock :: rest => Mode_eqb m Outside && well_locked Writing rest
  | Unlock :: rest => Mode_eqb m Writing && well_locked Outside rest
  | IfConnNil n :: rest =>
      negb (existsb is_lock_op (firstn n rest)) && well_locked m rest
  | _ :: rest => well_locked m rest
  end.

(** What a thread's change of mode asks of the lock and does to it. *)
Definition relock (old new : Mode) (m m' : RWMutex) : Prop :=
  match old, new with
  | Outside, Reading => writer m = false /\ m' = mkRWMutex (S (readers m)) false
  | Reading, Outside => m' = mkRWMutex (pred (readers m)) (writer m)
  | Outside, Writing =>
      writer m = false /\ readers m = 0%nat /\ m' = mkRWMutex 0 true
  | Writing, Outside => m' = mkRWMutex (readers m) false
  | Outside, Outside | Reading, Reading | Writing, Writing => m' = m
  | _, _ => False
  end.

(** The number of threads in mode [m]. *)
Definition count_mode (m : Mode) (pool : list (list Instr)) : nat :=
  List.length (filter (fun prog => Mode_eqb (holds prog) m) pool).

(** What the lock's fields say is what the threads do. *)
Definition consistent (st : State) : Prop :=
  Forall (fun prog => well_locked (holds prog) prog = true) (threads st) /\
  readers (mu st) = count_mode Reading (threads st) /\
  (if writer (mu st)
   then count_mode Writing (threads st) = 1%nat /\ count_mode Reading (threads st) = 0%nat
   else count_mode Writing (threads st) = 0%nat).

(** The steps of a method that write a field of the session. *)
Definition writes_field (i : Instr) : bool :=
  match i with ConnClear | SchemaStore _ => true | _ => false end.

(** The mode in which a method takes the lock: its first step. *)
Definition takes_exclusive (method : list Instr) : bool :=
  match method with Lock :: _ => true | _ => false end.

Definition takes_shared (method : list Instr) : bool :=
  match method with RLock :: _ => true | _ => false end.

(** Every thread has run its methods to the end. *)
Definition finished (st : State) : bool :=
  forallb (fun prog => match prog with [] => true | _ => false end) (threads st).

(** The steps the threads have left. *)
Definition remaining (pool : list (list Instr)) : nat :=
  fold_right (fun prog n => (List.length prog + n)%nat) 0%nat pool.

(** A program that never sets [s.conn] to nil. *)
Definition stable (prog : list Instr) : bool :=
  forallb (fun i => match i with ConnClear => false | _ => true end) prog.

(** A program whose uses of [s.conn] all stand under a nil test that skips
    them: started with the field nil, it reaches none of them.  [skip]
    counts the steps a nil test still skips. *)
Fixpoint guarded (skip : nat) (prog : list Instr) : bool :=
  match prog with
  | [] => true
  | ins :: rest =>
      match skip with
      | S k => guarded k rest
      | O =>
          match ins with
          | IfConnNil n => guarded n rest
          | ConnClose | ConnRemoteAddr => false
          | _ => guarded 0 rest
          end
      end
  end.

(** One thread running [prog] on its own, [s.conn] non-nil or not ([c]):
    it never calls a method on a nil [s.conn]. *)
Fixpoint safe (c : bool) (skip : nat) (prog : list Instr) : bool :=
  match prog with
  | [] => true
  | ins :: rest =>
      match skip with
      | S k => safe c k rest
      | O =>
          match ins with
          | IfConnNil n => if c then safe c 0 rest else safe c n rest
          | ConnClose | ConnRemoteAddr => c && safe c 0 rest
          | ConnClear => safe false 0 rest
          | _ => safe c 0 rest
          end
      end
  end.

(** One thread running [prog] on its own: the number of [Close()] calls
    the transport will receive. *)
Fixpoint will_close (c : bool) (skip : nat) (prog : list Instr) : nat :=
  match prog with
  | [] => 0
  | ins :: rest =>
      match skip with
      | S k => will_close c k rest
      | O =>
          match ins with
          | IfConnNil n => if c then will_close c 0 rest else will_close c n rest
          | ConnClose => S (will_close c 0 rest)
          | ConnClear => will_close false 0 rest
          | _ => will_close c 0 rest
          end
      end
  end.

(** The methods of session.go, as a thread calls them. *)
Definition is_method (prog : list Instr) : Prop :=
  prog = Close \/ prog = Addr \/ (exists v, prog = SetSchema v) \/ prog = Getter.

(** A session of [driver] as the threads see it. *)
Definition view (s : driver.Session) (closed : nat) (pool : list (list Instr)) : State :=
  mkState (mkRWMutex 0 false)
    (match driver.conn s with Some _ => true | None => false end)
    closed (driver.schema s) 0 pool.

End Threads.

(** ** What the phases emit when the transport does not fail *)

Module Phases.

Import sqltypes proto packet driver.

(** The test both [writeFields] and [writeFinish] make: the negotiated
    flags lack the deprecate-EOF bit. *)
Definition legacy (s : Session) : bool :=
  Z.land (ClientFlags (auth s)) sqldb.CLIENT_DEPRECATE_EOF =? 0.

(** The session after calls [cs] that all succeeded and appended [ps]. *)
Definition grow (s : Session) (ps : list Packet) (cs : list Call) : Session :=
  set_packets s
    (mkPackets (buffered (packets s) ++ ps) (wire (packets s))
       (skipn (List.length cs) (outcomes (packets s)))
       (calls (packets s) ++ cs)).

Definition fields_packets (s : Session) (r : Result) : list Packet :=
  map ColumnDef (Fields r) ++ (if legacy s then [EOF] else []).

Definition fields_calls (s : Session) : list Call :=
  CallAppendColumns :: (if legacy s then [CallAppendEOF] else []).

(** The bytes of one value and of one row. *)
Definition encode_value (v : Value) : bytes :=
  if IsNull v then [251]
  else common.lenenc (Z.of_nat (List.length (Raw v))) ++ Raw v.

Definition encode_row (row : list Value) : bytes := flat_map encode_value row.

Definition rows_packets (rows : list (list Value)) : list Packet :=
  map (fun row => Payload (encode_row row)) rows.

Definition rows_calls (rows : list (list Value)) : list Call :=
  map (fun _ => CallAppend) rows.

Definition terminal (s : Session) (r : Result) : Packet :=
  if legacy s then EOF
  else OKWithEOFHeader (RowsAffected r) (InsertID r) (Status (greeting s)) (Warnings r).

Definition finish_call (s : Session) : Call :=
  if legacy s then CallAppendEOF else CallAppendOKWithEOFHeader.

(** The shape of a terminal packet, apart from the values it carries. *)
Inductive Shape := LegacyMarker | OKShaped | NotTerminal.

Definition shape (k : Packet) : Shape :=
  match k with
  | EOF => LegacyMarker
  | OKWithEOFHeader _ _ _ _ => OKShaped
  | _ => NotTerminal
  end.

(** What a value is, apart from how it is stored: null or its bytes. *)
Definition content (v : Value) : option bytes :=
  if IsNull v then None else Some (Raw v).

(** Reading a row back, as a client does. *)
Definition take (n : nat) (bs : bytes) : option (bytes * bytes) :=
  if (n <=? List.length bs)%nat then Some (firstn n bs, skipn n bs) else None.

Definition take_le (n : nat) (bs : bytes) : option (Z * bytes) :=
  match take n bs with
  | Some (x, rest) => Some (le_value x, rest)
  | None => None
  end.

Definition decode_lenenc (bs : bytes) : option (Z * bytes) :=
  match bs with
  | [] => None
  | b :: rest =>
      if b <? 251 then Some (b, rest)
      else if b =? 252 then take_le 2 rest
      else if b =? 253 then take_le 3 rest
      else if b =? 254 then take_le 8 rest
      else None
  end.

Definition decode_value (bs : bytes) : option (option bytes * bytes) :=
  match bs with
  | [] => None
  | b :: rest =>
      if b =? 251 then Some (None, rest)
      else
        match decode_lenenc bs with
        | Some (n, rest') =>
            match take (Z.to_nat n) rest' with
            | Some (raw, rest'') => Some (Some raw, rest'')
            | None => None
            end
        | None => None
        end
  end.

Fixpoint decode_values (fuel : nat) (bs : bytes) : option (list (option bytes)) :=
  match bs with
  | [] => Some []
  | _ :: _ =>
      match fuel with
      | O => None
      | S fuel' =>
          match decode_value bs with
          | Some (v, rest) =>
              match decode_values fuel' rest with
              | Some vs => Some (v :: vs)
              | None => None
              end
          | None => None
          end
      end
  end.

(** Every value takes a byte at least, so the length of the bytes is fuel
    enough. *)
Definition decode_row (bs : bytes) : option (list (option bytes)) :=
  decode_values (List.length bs) bs.

(** A value whose length fits the 8 bytes of the widest prefix; Go's
    slices are shorter than 2^63. *)
Definition sized (v : Value) : Prop :=
  IsNull v = true \/ Z.of_nat (List.length (Raw v)) < 2 ^ 64.

Definition is_flush (c : Call) : bool :=
  match c with CallFlush => true | _ => false end.

(** The phases the [switch] of [writeResult] runs for a state, in order. *)
Definition phases (r : Result) : list M :=
  match State r with
  | RState_None => [writeFields r; writeRows r; writeFinish r]
  | RState_Fields => [writeFields r]
  | RState_Rows => [writeRows r]
  | RState_Finished => [writeFinish r]
  end.

(** Methods one after the other, up to the first that fails. *)
Fixpoint sequence (ms : list M) : M :=
  match ms with
  | [] => ok
  | m :: rest => m ;; sequence rest
  end.

(** What [writeResult] emits for a result with fields, by its state. *)
Definition response (s : Session) (r : Result) : list Packet :=
  match State r with
  | RState_None => fields_packets s r ++ rows_packets (Rows r) ++ [terminal s r]
  | RState_Fields => fields_packets s r
  | RState_Rows => rows_packets (Rows r)
  | RState_Finished => [terminal s r]
  end.

(** Every packet the writer was given so far, sent or still buffered. *)
Definition emitted (p : Packets) : list Packet := stream p ++ buffered p.

(** A method that only adds calls to the writer's log, none of them a
    flush. *)
Definition flushless (m : M) : Prop :=
  forall s, exists cs,
    calls (packets (snd (m s))) = calls (packets s) ++ cs /\
    forallb (fun c => negb (is_flush c)) cs = true.


(** A method that only appends: it logs calls, none of them a flush, hands
    nothing to the transport and keeps what was buffered, in order, in
    front of what it adds. *)
Definition buffering (m : M) : Prop :=
  forall s, exists cs ps,
    calls (packets (snd (m s))) = calls (packets s) ++ cs /\
    forallb (fun c => negb (is_flush c)) cs = true /\
    wire (packets (snd (m s))) = wire (packets s) /\
    buffered (packets (snd (m s))) = buffered (packets s) ++ ps.

End Phases.

(** ** The scenarios of the specification, as values *)

Module Scenario.

Import sqltypes proto packet driver.

Definition id_field : Field := mkField "id" 3 0.

(** Rows [[1], [null]]: the text "1" and a null. *)
Definition two_rows : list (list Value) := [[MakeRaw [49]]; [NULL]].

Definition select (st : ResultState) : Result :=
  mkResult [id_field] 0 0 0 two_rows st.

(** An INSERT result: no fields, three rows affected, insert id 7. *)
Definition insert (st : ResultState) : Result := mkResult [] 3 7 0 [] st.

Definition peer : Conn := mkConn "127.0.0.1:3306".

(** A session whose client negotiated [flags], on a transport with the
    outcomes [os] in store. *)
Definition session (flags status : Z) (os : list (option error)) : Session :=
  newSession 1 peer (mkAuth flags "root" [] 33) (mkGreeting status [])  os.

Definition old_client : Session := session 0 2 [].

Definition new_client : Session := session sqldb.CLIENT_DEPRECATE_EOF 2 [].

(** A rendering of results for the text of the shape error. *)
Definition sprint (r : Result) : string := "&{...}".

(** The same result in a stream: its parts. *)
Definition batch (rows : list (list Value)) : Result :=
  mkResult [id_field] 0 0 0 rows RState_Rows.

Definition streamed : list Result :=
  [select RState_Fields; batch [[MakeRaw [49]]]; batch [[NULL]]; select RState_Finished].

Definition broken_pipe : error := ErrorString "write: broken pipe".

(** A transport that fails the fourth call on the writer. *)
Definition flaky : Session := session 0 2 [None; None; None; Some broken_pipe].

(** A session with another status, and a result with warnings. *)
Definition other_status : Session := session 0 34 [].

Definition with_warnings (st : ResultState) : Result :=
  mkResult [id_field] 0 0 5 two_rows st.

End Scenario.

(** * Facts *)

Import sqltypes proto packet driver Phases.

(** ** The writer *)

Lemma healthy_hd (p : Packets) : healthy p -> hd None (outcomes p) = None.
Proof.
  unfold healthy. destruct (outcomes p) as [|o os]; simpl; [reflexivity|].
  intros H. inversion H; assumption.
Qed.

Lemma healthy_skipn (n : nat) (os : list (option error)) :
  Forall (fun o => o = None) os -> Forall (fun o => o = None) (skipn n os).
Proof.
  revert os. induction n as [|n IH]; intros os H; simpl; [assumption|].
  destruct os as [|o os]; [constructor|]. inversion H; subst. now apply IH.
Qed.

Lemma healthy_grow (s : Session) ps cs :
  healthy (packets s) -> healthy (packets (grow s ps cs)).
Proof. unfold healthy, grow; simpl. apply healthy_skipn. Qed.

Lemma skipn_skipn_add {A : Type} (n m : nat) (l : list A) :
  skipn m (skipn n l) = skipn (n + m) l.
Proof.
  revert l. induction n as [|n IH]; intros l; simpl; [reflexivity|].
  destruct l; [now destruct m|apply IH].
Qed.

Lemma grow_grow (s : Session) ps cs ps' cs' :
  grow (grow s ps cs) ps' cs' = grow s (ps ++ ps') (cs ++ cs').
Proof.
  unfold grow, set_packets; simpl.
  rewrite <- !app_assoc, skipn_skipn_add, length_app. reflexivity.
Qed.

Lemma grow_nil (s : Session) : grow s [] [] = s.
Proof.
  destruct s as [i c sc a [b w o cl] g]. unfold grow, set_packets; simpl.
  now rewrite !app_nil_r.
Qed.

(** A successful append: the packets join the buffer, the call the log. *)
Lemma push_healthy (c : Call) (ps : list Packet) (s : Session) :
  healthy (packets s) ->
  on_packets (invoke c (push ps)) s = (None, grow s ps [c]).
Proof.
  intros H. unfold on_packets, invoke. rewrite (healthy_hd _ H).
  destruct s as [i cn sc a [b w o cl] g]. unfold grow, push, set_packets; simpl.
  now destruct o.
Qed.

(** A failing call: its error comes back, nothing joins buffer or wire. *)
Lemma invoke_fails (c : Call) eff (s : Session) (e : error) os :
  outcomes (packets s) = Some e :: os ->
  on_packets (invoke c eff) s =
    (Some e,
     set_packets s
       (mkPackets (buffered (packets s)) (wire (packets s)) os
          (calls (packets s) ++ [c]))).
Proof. intros H. unfold on_packets, invoke. rewrite H. reflexivity. Qed.

(** ** The phases on a healthy transport *)

Lemma writeFields_healthy (r : Result) (s : Session) :
  healthy (packets s) ->
  writeFields r s = (None, grow s (fields_packets s r) (fields_calls s)).
Proof.
  intros H. unfold writeFields, andThen, AppendColumns.
  rewrite (push_healthy _ _ _ H).
  unfold fields_packets, fields_calls, legacy.
  change (auth (grow s (map ColumnDef (Fields r)) [CallAppendColumns])) with (auth s).
  destruct (Z.land (ClientFlags (auth s)) sqldb.CLIENT_DEPRECATE_EOF =? 0).
  - unfold AppendEOF. rewrite push_healthy by now apply healthy_grow.
    now rewrite grow_grow.
  - unfold ok. now rewrite app_nil_r.
Qed.

Lemma rowBuf_from (row : list Value) (b : common.Buffer) :
  fold_left
    (fun buf val =>
       if IsNull val then common.WriteLenEncodeNUL buf
       else common.WriteLenEncodeBytes buf (Raw val)) row b
  = b ++ encode_row row.
Proof.
  revert b. induction row as [|v row IH]; intros b; simpl.
  - now rewrite app_nil_r.
  - rewrite IH. unfold encode_row at 2. simpl. fold (encode_row row).
    unfold encode_value.
    destruct (IsNull v); unfold common.WriteLenEncodeNUL, common.WriteU8,
      common.WriteLenEncodeBytes, common.WriteBytes, common.WriteLenEncode;
      simpl; now rewrite <- !app_assoc.
Qed.

(** The buffer the inner loop fills is the concatenation of the values'
    encodings. *)
Lemma rowBuf_encode (row : list Value) : common.Datas (rowBuf row) = encode_row row.
Proof. unfold rowBuf, common.Datas, common.NewBuffer. now rewrite rowBuf_from. Qed.

Lemma appendRows_healthy (rows : list (list Value)) (s : Session) :
  healthy (packets s) ->
  appendRows rows s = (None, grow s (rows_packets rows) (rows_calls rows)).
Proof.
  revert s. induction rows as [|row rows IH]; intros s H; simpl.
  - unfold ok. now rewrite grow_nil.
  - unfold andThen, Append. rewrite (push_healthy _ _ _ H).
    rewrite IH by now apply healthy_grow.
    now rewrite grow_grow, rowBuf_encode.
Qed.

Lemma writeRows_healthy (r : Result) (s : Session) :
  healthy (packets s) ->
  writeRows r s = (None, grow s (rows_packets (Rows r)) (rows_calls (Rows r))).
Proof. apply appendRows_healthy. Qed.

Lemma writeFinish_healthy (r : Result) (s : Session) :
  healthy (packets s) ->
  writeFinish r s = (None, grow s [terminal s r] [finish_call s]).
Proof.
  intros H. unfold writeFinish, terminal, finish_call, legacy.
  destruct (Z.land (ClientFlags (auth s)) sqldb.CLIENT_DEPRECATE_EOF =? 0).
  - unfold AppendEOF. now rewrite push_healthy.
  - unfold AppendOKWithEOFHeader. now rewrite push_healthy.
Qed.

Lemma flush_healthy (s : Session) :
  healthy (packets s) ->
  flush s =
    (None,
     set_packets s
       (mkPackets [] (wire (packets s) ++ [buffered (packets s)])
          (tl (outcomes (packets s))) (calls (packets s) ++ [CallFlush]))).
Proof.
  intros H. unfold flush, on_packets, Flush, invoke.
  now rewrite (healthy_hd _ H).
Qed.

Lemma skipn_length_app {A : Type} (l k : list A) : skipn (List.length l) (l ++ k) = k.
Proof. induction l as [|x l IH]; simpl; [reflexivity|exact IH]. Qed.

Lemma appended_grow (m : M) (s : Session) ps cs e :
  m s = (e, grow s ps cs) -> appended m s = ps.
Proof. intros H. unfold appended. rewrite H. simpl. apply skipn_length_app. Qed.

Lemma called_grow (m : M) (s : Session) ps cs e :
  m s = (e, grow s ps cs) -> called m s = cs.
Proof. intros H. unfold called. rewrite H. simpl. apply skipn_length_app. Qed.

Lemma appended_writeFields (r : Result) (s : Session) :
  healthy (packets s) -> appended (writeFields r) s = fields_packets s r.
Proof. intros H. eapply appended_grow, writeFields_healthy, H. Qed.

Lemma appended_writeRows (r : Result) (s : Session) :
  healthy (packets s) -> appended (writeRows r) s = rows_packets (Rows r).
Proof. intros H. eapply appended_grow, writeRows_healthy, H. Qed.

Lemma appended_writeFinish (r : Result) (s : Session) :
  healthy (packets s) -> appended (writeFinish r) s = [terminal s r].
Proof. intros H. eapply appended_grow, writeFinish_healthy, H. Qed.

Lemma terminal_is_terminal (s : Session) (r : Result) : is_terminal (terminal s r) = true.
Proof. unfold terminal. now destruct (legacy s). Qed.

Lemma rows_not_terminal (rows : list (list Value)) :
  forallb (fun k => negb (is_terminal k)) (rows_packets rows) = true.
Proof. induction rows as [|row rows IH]; simpl; [reflexivity|exact IH]. Qed.

Lemma nonempty_length {A : Type} (l : list A) :
  l <> [] -> (List.length l =? 0)%nat = false.
Proof. destruct l; [congruence|reflexivity]. Qed.

(** The three phases and the flush of a complete response, on a healthy
    transport. *)
Lemma writeResult_none_healthy (sprint : Result -> string) (r : Result) (s : Session) :
  Fields r <> [] -> State r = RState_None -> healthy (packets s) ->
  writeResult sprint r s =
    flush (grow s (fields_packets s r ++ rows_packets (Rows r) ++ [terminal s r])
             (fields_calls s ++ rows_calls (Rows r) ++ [finish_call s])).
Proof.
  intros HF HS H. unfold writeResult. rewrite (nonempty_length _ HF), HS.
  unfold andThen.
  rewrite (writeFields_healthy _ _ H).
  rewrite writeRows_healthy by now apply healthy_grow.
  rewrite grow_grow.
  rewrite writeFinish_healthy by now apply healthy_grow.
  now rewrite grow_grow, <- !app_assoc.
Qed.

(** C1: a result with fields and state None, on a transport that does not
    fail: [writeResult] returns nil; the one batch it hands to the
    transport is what was buffered before, then what the fields phase
    emits, then the rows phase, then the finish phase; the buffer is left
    empty; the calls are those of the three phases and then one flush, the
    only one; the finish phase emits exactly one packet, a terminal one,
    and no packet of the rows phase is terminal. *)
Theorem writeResult_complete_response
  (sprint : Result -> string) (r : Result) (s : Session) :
  Fields r <> [] -> State r = RState_None -> healthy (packets s) ->
  let out1 := appended (writeFields r) s in
  let out2 := appended (writeRows r) s in
  let out3 := appended (writeFinish r) s in
  let phase_calls :=
    called (writeFields r) s ++ called (writeRows r) s ++ called (writeFinish r) s in
  fst (writeResult sprint r s) = None /\
  sent (writeResult sprint r) s = [buffered (packets s) ++ out1 ++ out2 ++ out3] /\
  stream (packets (snd (writeResult sprint r s))) =
    stream (packets s) ++ buffered (packets s) ++ out1 ++ out2 ++ out3 /\
  buffered (packets (snd (writeResult sprint r s))) = [] /\
  called (writeResult sprint r) s = phase_calls ++ [CallFlush] /\
  forallb (fun c => negb (is_flush c)) phase_calls = true /\
  (exists t, out3 = [t] /\ is_terminal t = true) /\
  forallb (fun k => negb (is_terminal k)) out2 = true.
Proof.
  intros HF HS H out1 out2 out3 phase_calls.
  subst out1 out2 out3 phase_calls.
  rewrite (appended_writeFields _ _ H), (appended_writeRows _ _ H),
    (appended_writeFinish _ _ H).
  rewrite (called_grow _ _ _ _ _ (writeFields_healthy r s H)),
    (called_grow _ _ _ _ _ (writeRows_healthy r s H)),
    (called_grow _ _ _ _ _ (writeFinish_healthy r s H)).
  unfold sent, called.
  rewrite (writeResult_none_healthy sprint r s HF HS H).
  rewrite flush_healthy by now apply healthy_grow.
  unfold stream; simpl.
  rewrite concat_app. simpl. rewrite app_nil_r, <- !app_assoc.
  rewrite (skipn_length_app (wire (packets s))), (skipn_length_app (calls (packets s))).
  repeat split.
  - unfold fields_calls. simpl. now rewrite <- !app_assoc.
  - unfold fields_calls, finish_call, rows_calls.
    destruct (legacy s); simpl; induction (Rows r); simpl; auto.
  - exists (terminal s r). split; [reflexivity|apply terminal_is_terminal].
  - apply rows_not_terminal.
Qed.

(** The scenario of the specification: one column, the rows [[1]] and
    [[null]], a client without the deprecate-EOF capability. *)
Lemma writeResult_complete_response_scenario :
  Fields (Scenario.select RState_None) <> [] /\
  healthy (packets Scenario.old_client) /\
  wire (packets (snd (writeResult Scenario.sprint (Scenario.select RState_None)
                        Scenario.old_client))) =
    [[ColumnDef Scenario.id_field; EOF; Payload [1; 49]; Payload [251]; EOF]].
Proof.
  split; [discriminate|]. split; [constructor|].
  pose proof (writeResult_complete_response Scenario.sprint
                (Scenario.select RState_None) Scenario.old_client) as H.
  simpl in H. destruct H as (_ & H & _); [discriminate|reflexivity|constructor|].
  reflexivity.
Defined.

(** C3: a result without fields and with state None, when [writeResult]
    returns nil: it handed the transport one batch holding one OK packet
    with the result's rows-affected count and insert id, the session's
    status and the result's warning count; it appended nothing to the
    buffer, so no column and no row packet was produced; its one call on
    the writer is WriteOK. *)
Theorem writeResult_ok_packet (sprint : Result -> string) (r : Result) (s : Session) :
  Fields r = [] -> State r = RState_None ->
  fst (writeResult sprint r s) = None ->
  sent (writeResult sprint r) s =
    [[OK (RowsAffected r) (InsertID r) (Status (greeting s)) (Warnings r)]] /\
  appended (writeResult sprint r) s = [] /\
  called (writeResult sprint r) s = [CallWriteOK] /\
  existsb is_column (concat (sent (writeResult sprint r) s)) = false /\
  existsb is_row (concat (sent (writeResult sprint r) s)) = false.
Proof.
  intros HF HS. unfold sent, appended, called, writeResult.
  rewrite HF, HS. simpl. unfold on_packets, WriteOK, invoke.
  destruct (hd None (outcomes (packets s))) as [e|]; simpl; [discriminate|].
  intros _. rewrite !skipn_length_app. simpl.
  rewrite <- (app_nil_r (buffered (packets s))) at 2.
  rewrite skipn_length_app. repeat split.
Qed.

(** On a transport that does not fail it does return nil. *)
Lemma writeResult_ok_returns (sprint : Result -> string) (r : Result) (s : Session) :
  Fields r = [] -> State r = RState_None -> healthy (packets s) ->
  fst (writeResult sprint r s) = None.
Proof.
  intros HF HS H. unfold writeResult. rewrite HF, HS. simpl.
  unfold on_packets, WriteOK, invoke. now rewrite (healthy_hd _ H).
Qed.

Lemma writeResult_ok_packet_scenario :
  Fields (Scenario.insert RState_None) = [] /\
  fst (writeResult Scenario.sprint (Scenario.insert RState_None) Scenario.old_client) = None /\
  sent (writeResult Scenario.sprint (Scenario.insert RState_None)) Scenario.old_client =
    [[OK 3 7 2 0]].
Proof.
  split; [reflexivity|]. split; [reflexivity|].
  apply (writeResult_ok_packet Scenario.sprint (Scenario.insert RState_None)
           Scenario.old_client); reflexivity.
Defined.

(** C4: a result without fields whose state is not None: [writeResult]
    returns the shape error and leaves the session as it was, so no packet
    is appended, nothing reaches the transport and no call is made on the
    writer, a flush included. *)
Theorem writeResult_shape_violation (sprint : Result -> string) (r : Result) (s : Session) :
  Fields r = [] -> State r <> RState_None ->
  writeResult sprint r s = (Some (unexpected sprint r), s) /\
  appended (writeResult sprint r) s = [] /\
  sent (writeResult sprint r) s = [] /\
  called (writeResult sprint r) s = [].
Proof.
  intros HF HS.
  assert (E : writeResult sprint r s = (Some (unexpected sprint r), s)).
  { unfold writeResult. rewrite HF. simpl.
    destruct (State r); [congruence| | |]; reflexivity. }
  unfold appended, sent, called. rewrite E. simpl.
  repeat split; apply skipn_all.
Qed.

Lemma writeResult_shape_violation_scenario :
  State (Scenario.insert RState_Rows) <> RState_None /\
  writeResult Scenario.sprint (Scenario.insert RState_Rows) Scenario.new_client =
    (Some (ErrorString
             "unexpected: result.without.no.fields.but.has.rows.result:&{...}"),
     Scenario.new_client).
Proof.
  split; [discriminate|].
  apply (writeResult_shape_violation Scenario.sprint (Scenario.insert RState_Rows)
           Scenario.new_client); [reflexivity|discriminate].
Defined.

(** ** Failures *)

Lemma andThen_assoc (m k l : M) (s : Session) : ((m ;; k) ;; l) s = (m ;; k ;; l) s.
Proof. unfold andThen. destruct (m s) as [[e|] s1]; reflexivity. Qed.

Lemma andThen_ok (m : M) (s : Session) : (m ;; ok) s = m s.
Proof. unfold andThen, ok. destruct (m s) as [[e|] s1]; reflexivity. Qed.

(** Past its first test, [writeResult] is the phases of its state and then
    the flush. *)
Lemma writeResult_phases (sprint : Result -> string) (r : Result) (s : Session) :
  Fields r <> [] -> writeResult sprint r s = (sequence (phases r) ;; flush) s.
Proof.
  intros HF. unfold writeResult, phases. rewrite (nonempty_length _ HF).
  destruct (State r); simpl; unfold andThen, ok;
    repeat match goal with
           | |- context [match ?m s with _ => _ end] => destruct (m s) as [[?|] ?]
           | |- context [match ?m ?x with _ => _ end] => destruct (m x) as [[?|] ?]
           end; reflexivity.
Qed.

Lemma sequence_stops (before after : list M) (m : M) (s s1 s' : Session) (e : error) :
  sequence before s = (None, s1) -> m s1 = (Some e, s') ->
  sequence (before ++ m :: after) s = (Some e, s').
Proof.
  revert s. induction before as [|b before IH]; intros s Hb Hm; simpl in *.
  - unfold ok in Hb. inversion Hb; subst. unfold andThen. now rewrite Hm.
  - unfold andThen in *. destruct (b s) as [[eb|] sb]; [discriminate|].
    now apply IH.
Qed.

Lemma flushless_invoke (c : Call) (eff : Packets -> Packets) :
  is_flush c = false -> (forall p, calls (eff p) = calls p) ->
  flushless (on_packets (invoke c eff)).
Proof.
  intros Hc Heff s. exists [c]. unfold on_packets, invoke.
  destruct (hd None (outcomes (packets s))); simpl; rewrite ?Heff; simpl;
    now rewrite Hc.
Qed.

Lemma flushless_ok : flushless ok.
Proof. intros s. exists []. simpl. now rewrite app_nil_r. Qed.

Lemma flushless_andThen (m k : M) : flushless m -> flushless k -> flushless (m ;; k).
Proof.
  intros Hm Hk s. unfold andThen. destruct (Hm s) as (cs & E & F).
  destruct (m s) as [[e|] s1]; simpl in *.
  - now exists cs.
  - destruct (Hk s1) as (cs' & E' & F'). exists (cs ++ cs').
    rewrite E', E, app_assoc, forallb_app, F, F'. now split.
Qed.

Lemma flushless_sequence (ms : list M) : Forall flushless ms -> flushless (sequence ms).
Proof.
  induction 1 as [|m ms Hm _ IH]; simpl;
    [apply flushless_ok|now apply flushless_andThen].
Qed.

Lemma flushless_cond (m k : M) (test : Session -> bool) :
  flushless m -> flushless k -> flushless (fun s => if test s then m s else k s).
Proof. intros Hm Hk s. destruct (test s); [apply Hm|apply Hk]. Qed.

Lemma flushless_writeFields (r : Result) : flushless (writeFields r).
Proof.
  unfold writeFields. apply flushless_andThen.
  - now apply flushless_invoke.
  - apply (flushless_cond (on_packets AppendEOF) ok
             (fun s => Z.land (ClientFlags (auth s)) sqldb.CLIENT_DEPRECATE_EOF =? 0)).
    + now apply flushless_invoke.
    + apply flushless_ok.
Qed.

Lemma flushless_appendRows (rows : list (list Value)) : flushless (appendRows rows).
Proof.
  induction rows as [|row rows IH]; simpl; [apply flushless_ok|].
  apply flushless_andThen; [now apply flushless_invoke|exact IH].
Qed.

Lemma flushless_writeFinish (r : Result) : flushless (writeFinish r).
Proof.
  intros s. unfold writeFinish.
  destruct (Z.land (ClientFlags (auth s)) sqldb.CLIENT_DEPRECATE_EOF =? 0);
    now apply flushless_invoke.
Qed.

Lemma flushless_phases (r : Result) : Forall flushless (phases r).
Proof.
  unfold phases. destruct (State r);
    repeat constructor;
    first [apply flushless_writeFields | apply flushless_appendRows
          | apply flushless_writeFinish].
Qed.

(** C8: a result with fields; [before], [m], [after] are the phases of its
    state in order.  When the phases [before] succeed and [m] returns the
    error [e], leaving the session [s']: [writeResult] returns [e] itself
    and leaves the session [s'], so the phases [after] and the flush are
    not run; no call of the whole [writeResult] on the writer is a flush. *)
Theorem writeResult_aborts_on_first_error
  (sprint : Result -> string) (r : Result) (s s1 s' : Session)
  (before after : list M) (m : M) (e : error) :
  Fields r <> [] ->
  phases r = before ++ m :: after ->
  sequence before s = (None, s1) ->
  m s1 = (Some e, s') ->
  writeResult sprint r s = (Some e, s') /\
  existsb is_flush (called (writeResult sprint r) s) = false.
Proof.
  intros HF Hp Hb Hm.
  assert (E : writeResult sprint r s = (Some e, s')).
  { rewrite (writeResult_phases sprint r s HF), Hp. unfold andThen at 1.
    now rewrite (sequence_stops before after m s s1 s' e Hb Hm). }
  split; [exact E|].
  assert (Hfl : flushless (sequence (before ++ [m]))).
  { apply flushless_sequence. pose proof (flushless_phases r) as F.
    rewrite Hp in F. apply Forall_app in F. destruct F as [F1 F2].
    apply Forall_app. split; [exact F1|]. inversion F2; subst. now repeat constructor. }
  destruct (Hfl s) as (cs & Ec & Fc).
  rewrite (sequence_stops before [] m s s1 s' e Hb Hm) in Ec. simpl in Ec.
  unfold called. rewrite E. simpl. rewrite Ec, skipn_length_app.
  clear - Fc. induction cs as [|c cs IH]; simpl in *; [reflexivity|].
  apply Bool.andb_true_iff in Fc. destruct Fc as [Fc1 Fc2].
  destruct (is_flush c); [discriminate|]. now apply IH.
Qed.

(** The fourth call on the writer (the second row's append) fails: the
    error comes back, nothing was flushed. *)
Lemma writeResult_aborts_scenario :
  writeResult Scenario.sprint (Scenario.select RState_None) Scenario.flaky =
    (Some Scenario.broken_pipe,
     set_packets Scenario.flaky
       (mkPackets [ColumnDef Scenario.id_field; EOF; Payload [1; 49]] [] []
          [CallAppendColumns; CallAppendEOF; CallAppend; CallAppend])).
Proof.
  apply (writeResult_aborts_on_first_error Scenario.sprint
           (Scenario.select RState_None) Scenario.flaky
           (snd (writeFields (Scenario.select RState_None) Scenario.flaky))
           _
           [writeFields (Scenario.select RState_None)]
           [writeFinish (Scenario.select RState_None)]
           (writeRows (Scenario.select RState_None))
           Scenario.broken_pipe);
    [discriminate|reflexivity|reflexivity|reflexivity].
Defined.

(** ** The capability flag *)

Lemma land_deprecate_eof (flags : Z) :
  (Z.land flags sqldb.CLIENT_DEPRECATE_EOF =? 0) = negb (Z.testbit flags 24).
Proof.
  unfold sqldb.CLIENT_DEPRECATE_EOF. rewrite Z.shiftl_1_l.
  destruct (Z.testbit flags 24) eqn:T; cbn [negb].
  - apply Z.eqb_neq. intros E.
    assert (B : Z.testbit (Z.land flags (2 ^ 24)) 24 = true).
    { rewrite Z.land_spec, T, Z.pow2_bits_true; [reflexivity|lia]. }
    rewrite E, Z.bits_0 in B. discriminate.
  - apply Z.eqb_eq. apply Z.bits_inj'. intros n Hn.
    rewrite Z.land_spec, Z.bits_0, Z.pow2_bits_eqb by lia.
    destruct (Z.eqb_spec 24 n) as [<-|N]; [now rewrite T|apply Bool.andb_false_r].
Qed.

(** The test of the source is the test of bit 24 of the flags. *)
Lemma legacy_testbit (s : Session) :
  legacy s = negb (Z.testbit (ClientFlags (auth s)) 24).
Proof. apply land_deprecate_eof. Qed.

(** C2, as amended: on a transport that does not fail, what ends the
    fields phase and what the finish phase emits depend on bit 24 of the
    negotiated flags only.  Bit unset: the legacy marker follows the column
    descriptors, and the finish phase emits the same marker, which carries
    no value: it is the same for every result and every session.  Bit set:
    nothing follows the column descriptors, and the finish phase emits the
    OK-shaped terminal with the result's rows-affected count, insert id and
    warning count and the session's status.  Two calls under the same bit
    emit terminals of the same shape, whatever the results hold. *)
Theorem terminal_by_capability_flag (r : Result) (s : Session) :
  healthy (packets s) ->
  let bit := Z.testbit (ClientFlags (auth s)) 24 in
  appended (writeFields r) s =
    map ColumnDef (Fields r) ++ (if bit then [] else [EOF]) /\
  appended (writeFinish r) s =
    [if bit
     then OKWithEOFHeader (RowsAffected r) (InsertID r) (Status (greeting s)) (Warnings r)
     else EOF] /\
  forall (r' : Result) (s' : Session),
    healthy (packets s') ->
    Z.testbit (ClientFlags (auth s')) 24 = bit ->
    map shape (appended (writeFinish r') s') = map shape (appended (writeFinish r) s) /\
    filter is_terminal (appended (writeFields r') s') =
      filter is_terminal (appended (writeFields r) s) /\
    (bit = false -> appended (writeFinish r') s' = appended (writeFinish r) s).
Proof.
  intros H bit. subst bit.
  rewrite (appended_writeFields _ _ H), (appended_writeFinish _ _ H).
  unfold fields_packets, terminal. rewrite legacy_testbit.
  split; [|split].
  - now destruct (Z.testbit (ClientFlags (auth s)) 24).
  - now destruct (Z.testbit (ClientFlags (auth s)) 24).
  - intros r' s' H' E.
    rewrite (appended_writeFields _ _ H'), (appended_writeFinish _ _ H').
    unfold fields_packets, terminal. rewrite legacy_testbit, E.
    assert (C : forall fs, filter is_terminal (map ColumnDef fs) = []).
    { induction fs as [|f fs IH]; simpl; [reflexivity|exact IH]. }
    rewrite !filter_app, !C.
    destruct (Z.testbit (ClientFlags (auth s)) 24); simpl; repeat split; discriminate.
Qed.

Lemma terminal_by_capability_flag_scenario :
  healthy (packets Scenario.new_client) /\
  appended (writeFields (Scenario.select RState_None)) Scenario.new_client =
    [ColumnDef Scenario.id_field] /\
  appended (writeFinish (Scenario.select RState_None)) Scenario.new_client =
    [OKWithEOFHeader 0 0 2 0].
Proof.
  split; [constructor|].
  destruct (terminal_by_capability_flag (Scenario.select RState_None)
              Scenario.new_client) as (F & T & _); [constructor|].
  split; [exact F|exact T].
Defined.

(** C2 as stated fails: without the deprecate-EOF bit, two sessions of
    different status and two results of different warning counts get the
    same packet from the finish phase, so the legacy marker carries neither
    the status nor the warning count. *)
Lemma legacy_marker_carries_no_value :
  legacy Scenario.old_client = true /\
  legacy Scenario.other_status = true /\
  Status (greeting Scenario.old_client) <> Status (greeting Scenario.other_status) /\
  Warnings (Scenario.select RState_None) <> Warnings (Scenario.with_warnings RState_None) /\
  appended (writeFinish (Scenario.select RState_None)) Scenario.old_client =
    appended (writeFinish (Scenario.with_warnings RState_None)) Scenario.other_status.
Proof. repeat split; discriminate. Qed.

(** ** Streaming *)

Lemma rows_packets_app (a b : list (list Value)) :
  rows_packets (a ++ b) = rows_packets a ++ rows_packets b.
Proof. apply map_app. Qed.

(** One call of [writeResult] for a result with fields, on a healthy
    transport: whatever was buffered leaves in one batch with the call's
    own packets behind it. *)
Lemma writeResult_step (sprint : Result -> string) (r : Result) (s : Session) :
  Fields r <> [] -> healthy (packets s) ->
  exists p',
    writeResult sprint r s = (None, set_packets s p') /\
    healthy p' /\
    buffered p' = [] /\
    wire p' = wire (packets s) ++ [buffered (packets s) ++ response s r].
Proof.
  intros HF H.
  assert (G : exists cs, writeResult sprint r s = flush (grow s (response s r) cs)).
  { unfold writeResult, response. rewrite (nonempty_length _ HF).
    destruct (State r); unfold andThen.
    - rewrite (writeFields_healthy _ _ H).
      rewrite writeRows_healthy by now apply healthy_grow.
      rewrite grow_grow.
      rewrite writeFinish_healthy by now apply healthy_grow.
      rewrite grow_grow, <- app_assoc. eexists; reflexivity.
    - rewrite (writeFields_healthy _ _ H). eexists; reflexivity.
    - rewrite (writeRows_healthy _ _ H). eexists; reflexivity.
    - rewrite (writeFinish_healthy _ _ H). eexists; reflexivity. }
  destruct G as (cs & G). rewrite G.
  rewrite flush_healthy by now apply healthy_grow.
  eexists. split; [reflexivity|]. simpl. repeat split.
  unfold healthy; simpl.
  pose proof (healthy_skipn (List.length cs) _ H) as K.
  destruct (skipn (List.length cs) (outcomes (packets s))); [constructor|].
  now inversion K.
Qed.

Lemma set_packets_same (s : Session) : set_packets s (packets s) = s.
Proof. now destruct s. Qed.

(** A run of calls, each for a result with fields, on a healthy transport:
    all succeed, every packet emitted is that of the calls in order, each
    call adds one batch, and after the last nothing is left buffered. *)
Lemma writeResults_run (sprint : Result -> string) (rs : list Result) (s : Session) :
  Forall (fun r => Fields r <> []) rs -> healthy (packets s) ->
  exists p',
    writeResults sprint rs s = (None, set_packets s p') /\
    healthy p' /\
    emitted p' = emitted (packets s) ++ flat_map (response s) rs /\
    (rs <> [] -> buffered p' = []) /\
    List.length (wire p') = (List.length (wire (packets s)) + List.length rs)%nat.
Proof.
  intros HF. revert s. induction HF as [|r rs Hr _ IH]; intros s H.
  - exists (packets s). simpl. unfold ok. rewrite set_packets_same, app_nil_r.
    repeat split; [assumption|congruence|lia].
  - destruct (writeResult_step sprint r s Hr H) as (p1 & E1 & H1 & B1 & W1).
    destruct (IH (set_packets s p1) H1) as (p2 & E2 & H2 & Em2 & B2 & L2).
    exists p2. simpl in *. unfold andThen. rewrite E1, E2.
    split; [reflexivity|]. split; [assumption|].
    split; [|split].
    + rewrite Em2. unfold emitted, stream. rewrite W1, B1, concat_app. simpl.
      now rewrite !app_nil_r, <- !app_assoc.
    + intros _. destruct rs as [|r' rs'].
      * simpl in E2. unfold ok in E2. inversion E2 as [E3].
        rewrite <- E3. exact B1.
      * apply B2. discriminate.
    + rewrite L2, W1, length_app. simpl. lia.
Qed.

(** C5: a result [r] with fields, streamed as a FieldsOnly call on its
    fields, one RowsOnly call per batch (the batches' rows, concatenated,
    are the rows of [r]) and a FinishedOnly call with the scalar values of
    [r], every sub-result carrying fields, against one call with state
    None; on a transport that does not fail.  Both return nil, and the
    packets that reached the transport are the same, in the same order;
    only the batches differ: one per call when streamed, a single one
    otherwise. *)
Theorem streaming_equivalence
  (sprint : Result -> string) (s : Session) (r rf rfin : Result) (batches : list Result) :
  healthy (packets s) ->
  Fields r <> [] -> State r = RState_None ->
  Fields rf = Fields r -> State rf = RState_Fields ->
  Forall (fun b => Fields b <> [] /\ State b = RState_Rows) batches ->
  flat_map Rows batches = Rows r ->
  Fields rfin <> [] -> State rfin = RState_Finished ->
  RowsAffected rfin = RowsAffected r ->
  InsertID rfin = InsertID r ->
  Warnings rfin = Warnings r ->
  let streamed := writeResults sprint (rf :: batches ++ [rfin]) in
  let whole := writeResult sprint r in
  fst (streamed s) = None /\
  fst (whole s) = None /\
  stream (packets (snd (streamed s))) = stream (packets (snd (whole s))) /\
  buffered (packets (snd (streamed s))) = [] /\
  buffered (packets (snd (whole s))) = [] /\
  List.length (sent streamed s) = (2 + List.length batches)%nat /\
  List.length (sent whole s) = 1%nat.
Proof.
  intros H HF HS HFf HSf HB HR HFn HSn HA HI HW streamed whole.
  subst streamed whole.
  assert (All : Forall (fun x => Fields x <> []) (rf :: batches ++ [rfin])).
  { constructor; [now rewrite HFf|]. apply Forall_app. split.
    - eapply Forall_impl; [|exact HB]. now intros b [Hb _].
    - now constructor. }
  destruct (writeResults_run sprint _ s All H) as (p & E & Hp & Em & B & L).
  destruct (writeResult_step sprint r s HF H) as (q & E' & Hq & B' & W').
  specialize (B ltac:(discriminate)).
  assert (Rows_only : flat_map (response s) batches = rows_packets (Rows r)).
  { rewrite <- HR. clear - HB. induction HB as [|b bs [_ Sb] _ IH]; simpl; [reflexivity|].
    rewrite rows_packets_app, <- IH. unfold response at 1. now rewrite Sb. }
  assert (Same : flat_map (response s) (rf :: batches ++ [rfin]) = response s r).
  { simpl. rewrite flat_map_app, Rows_only. simpl. rewrite app_nil_r.
    unfold response. rewrite HSf, HSn, HS.
    unfold fields_packets, terminal. now rewrite HFf, HA, HI, HW. }
  unfold sent. rewrite E, E'. simpl.
  repeat split; try assumption.
  - unfold emitted in Em. rewrite B, app_nil_r in Em. rewrite Em, Same.
    unfold stream. rewrite W', concat_app. simpl. now rewrite app_nil_r, app_assoc.
  - rewrite length_skipn, L. simpl. rewrite length_app. simpl. lia.
  - rewrite W', skipn_length_app. reflexivity.
Qed.

(** The scenario, streamed in four calls to a client with the
    deprecate-EOF capability. *)
Lemma streaming_equivalence_scenario :
  healthy (packets Scenario.new_client) /\
  stream (packets (snd (writeResults Scenario.sprint Scenario.streamed Scenario.new_client))) =
    stream (packets (snd (writeResult Scenario.sprint (Scenario.select RState_None)
                            Scenario.new_client))) /\
  List.length (wire (packets (snd (writeResults Scenario.sprint Scenario.streamed
                                     Scenario.new_client)))) = 4%nat.
Proof.
  split; [constructor|].
  destruct (streaming_equivalence Scenario.sprint Scenario.new_client
              (Scenario.select RState_None) (Scenario.select RState_Fields)
              (Scenario.select RState_Finished)
              [Scenario.batch [[MakeRaw [49]]]; Scenario.batch [[NULL]]])
    as (_ & _ & E & _);
    [ constructor | discriminate | reflexivity | reflexivity | reflexivity
    | repeat (constructor; try (split; [discriminate|reflexivity]))
    | reflexivity | discriminate | reflexivity | reflexivity | reflexivity
    | reflexivity | ].
  split; [exact E|reflexivity].
Defined.

(** ** The bytes of a row *)

Lemma le_bytes_length (n : nat) (v : Z) : List.length (le_bytes n v) = n.
Proof.
  revert v. induction n as [|n IH]; intros v; cbn [le_bytes List.length];
    [reflexivity|now rewrite IH].
Qed.

Lemma land_255 (v : Z) : Z.land v 255 = v mod 256.
Proof. change 255 with (Z.ones 8). now rewrite Z.land_ones by lia. Qed.

Lemma le_value_le_bytes (n : nat) (v : Z) :
  0 <= v < 2 ^ (8 * Z.of_nat n) -> le_value (le_bytes n v) = v.
Proof.
  revert v. induction n as [|n IH]; intros v Hv; cbn [le_bytes le_value].
  - change (2 ^ (8 * Z.of_nat 0)) with 1 in Hv. lia.
  - rewrite land_255, Z.shiftr_div_pow2 by lia. change (2 ^ 8) with 256.
    rewrite IH.
    + pose proof (Z.div_mod v 256). lia.
    + replace (8 * Z.of_nat (S n)) with (8 + 8 * Z.of_nat n) in Hv by lia.
      rewrite Z.pow_add_r in Hv by lia. change (2 ^ 8) with 256 in Hv.
      split; [apply Z.div_pos; lia|apply Z.div_lt_upper_bound; lia].
Qed.

Lemma firstn_length_app {A : Type} (l k : list A) : firstn (List.length l) (l ++ k) = l.
Proof. induction l as [|x l IH]; simpl; [reflexivity|now rewrite IH]. Qed.

Lemma take_app (x rest : bytes) : take (List.length x) (x ++ rest) = Some (x, rest).
Proof.
  unfold take. rewrite length_app.
  replace (List.length x <=? List.length x + List.length rest)%nat with true
    by (symmetry; apply Nat.leb_le; lia).
  now rewrite firstn_length_app, skipn_length_app.
Qed.

Lemma take_le_bytes (n : nat) (v : Z) (rest : bytes) :
  0 <= v < 2 ^ (8 * Z.of_nat n) -> take_le n (le_bytes n v ++ rest) = Some (v, rest).
Proof.
  intros Hv. unfold take_le.
  rewrite <- (le_bytes_length n v) at 1. rewrite take_app.
  now rewrite le_value_le_bytes.
Qed.

(** The prefix of a length never starts with the null marker. *)
Lemma lenenc_head (L : Z) :
  0 <= L -> exists b tl, common.lenenc L = b :: tl /\ b <> 251.
Proof.
  intros HL. unfold common.lenenc.
  destruct (Z.ltb_spec L 251) as [H1|H1].
  - exists (Z.land L 255), []. split; [reflexivity|].
    rewrite land_255, Z.mod_small; lia.
  - destruct (L <? Z.shiftl 1 16); [|destruct (L <? Z.shiftl 1 24)];
      eexists; eexists; (split; [reflexivity|lia]).
Qed.

Lemma decode_lenenc_lenenc (L : Z) (rest : bytes) :
  0 <= L < 2 ^ 64 -> decode_lenenc (common.lenenc L ++ rest) = Some (L, rest).
Proof.
  intros HL. unfold common.lenenc.
  destruct (Z.ltb_spec L 251) as [H1|H1].
  - cbn [le_bytes app decode_lenenc]. rewrite land_255, Z.mod_small by lia.
    destruct (Z.ltb_spec L 251); [reflexivity|lia].
  - change (Z.shiftl 1 16) with (2 ^ (8 * Z.of_nat 2)).
    change (Z.shiftl 1 24) with (2 ^ (8 * Z.of_nat 3)).
    destruct (Z.ltb_spec L (2 ^ (8 * Z.of_nat 2))) as [H2|H2];
      [|destruct (Z.ltb_spec L (2 ^ (8 * Z.of_nat 3))) as [H3|H3]];
      rewrite <- app_comm_cons; cbn [decode_lenenc]; cbn [Z.ltb Z.eqb Z.compare Pos.compare Pos.compare_cont Pos.eqb];
      apply take_le_bytes; lia.
Qed.

Lemma decode_value_encode (v : Value) (rest : bytes) :
  sized v -> decode_value (encode_value v ++ rest) = Some (content v, rest).
Proof.
  intros Hv. unfold encode_value, content.
  destruct (IsNull v) eqn:N; [reflexivity|].
  destruct Hv as [Hv|Hv]; [congruence|].
  destruct (lenenc_head (Z.of_nat (List.length (Raw v)))) as (b & tl & E & Hb); [lia|].
  rewrite <- app_assoc.
  assert (D := decode_lenenc_lenenc (Z.of_nat (List.length (Raw v))) (Raw v ++ rest)
                 ltac:(lia)).
  rewrite E in *. rewrite <- app_comm_cons in *. unfold decode_value.
  destruct (Z.eqb_spec b 251); [contradiction|].
  rewrite D, Nat2Z.id, take_app. reflexivity.
Qed.

Lemma encode_value_nonempty (v : Value) : encode_value v <> [].
Proof.
  unfold encode_value. destruct (IsNull v); [discriminate|].
  destruct (lenenc_head (Z.of_nat (List.length (Raw v)))) as (b & tl & E & _); [lia|].
  rewrite E. discriminate.
Qed.

Lemma decode_values_encode (row : list Value) :
  Forall sized row ->
  forall fuel, (List.length row <= fuel)%nat ->
    decode_values fuel (encode_row row) = Some (map content row).
Proof.
  induction 1 as [|v row Hv _ IH]; intros fuel Hf.
  - now destruct fuel.
  - unfold encode_row. cbn [flat_map map]. fold (encode_row row).
    destruct fuel as [|fuel]; [simpl in Hf; lia|].
    pose proof (decode_value_encode v (encode_row row) Hv) as D.
    destruct (encode_value v ++ encode_row row) as [|b bs] eqn:E.
    + apply app_eq_nil in E. destruct E as [E _]. now apply encode_value_nonempty in E.
    + cbn [decode_values]. rewrite D, IH; [reflexivity|simpl in Hf; lia].
Qed.

Lemma encode_row_length (row : list Value) :
  (List.length row <= List.length (encode_row row))%nat.
Proof.
  induction row as [|v row IH]; [apply Nat.le_refl|].
  unfold encode_row. cbn [flat_map]. fold (encode_row row). rewrite length_app.
  pose proof (encode_value_nonempty v) as N.
  destruct (encode_value v); [congruence|]. simpl. lia.
Qed.

(** A client reads back from a row's bytes what the row held: null where
    it was null, the bytes where it was not. *)
Lemma decode_row_encode (row : list Value) :
  Forall sized row -> decode_row (encode_row row) = Some (map content row).
Proof.
  intros H. apply decode_values_encode; [exact H|apply encode_row_length].
Qed.

(** C6: the rows phase on a transport that does not fail: it appends one
    packet per row, in order, holding the row's buffer; the buffer is the
    concatenation of its values' encodings; a null value is encoded as the
    one byte 0xfb, any other as the length-encoded integer of its length
    followed by its bytes; the encoding of a null is not empty and differs
    from that of every non-null value (the zero-length one included); and
    from the bytes of a row whose values fit a length prefix a client
    decodes exactly the nulls and byte strings the row held. *)
Theorem rows_phase_encoding (r : Result) (s : Session) :
  healthy (packets s) ->
  appended (writeRows r) s =
    map (fun row => Payload (common.Datas (rowBuf row))) (Rows r) /\
  List.length (appended (writeRows r) s) = List.length (Rows r) /\
  (forall row,
     common.Datas (rowBuf row) = flat_map (fun v => common.Datas (rowBuf [v])) row) /\
  (forall v, IsNull v = true -> common.Datas (rowBuf [v]) = [251]) /\
  (forall v, IsNull v = false ->
     common.Datas (rowBuf [v]) =
       common.lenenc (Z.of_nat (List.length (Raw v))) ++ Raw v) /\
  (forall v w, IsNull v = true -> IsNull w = false ->
     common.Datas (rowBuf [v]) <> [] /\
     common.Datas (rowBuf [v]) <> common.Datas (rowBuf [w])) /\
  (forall row, Forall sized row ->
     decode_row (common.Datas (rowBuf row)) = Some (map content row)).
Proof.
  intros H.
  assert (One : forall v, common.Datas (rowBuf [v]) = encode_value v).
  { intros v. rewrite rowBuf_encode. unfold encode_row. simpl. apply app_nil_r. }
  rewrite (appended_writeRows _ _ H). unfold rows_packets.
  split; [|split; [|split; [|split; [|split; [|split]]]]].
  - apply map_ext. intros row. now rewrite rowBuf_encode.
  - apply length_map.
  - intros row. rewrite rowBuf_encode. unfold encode_row.
    apply flat_map_ext. intros v. now rewrite One.
  - intros v N. rewrite One. unfold encode_value. now rewrite N.
  - intros v N. rewrite One. unfold encode_value. now rewrite N.
  - intros v w Nv Nw. rewrite !One. split; [apply encode_value_nonempty|].
    unfold encode_value. rewrite Nv, Nw.
    destruct (lenenc_head (Z.of_nat (List.length (Raw w)))) as (b & tl & E & Hb); [lia|].
    rewrite E. simpl. congruence.
  - intros row Hs. rewrite rowBuf_encode. now apply decode_row_encode.
Qed.

Lemma rows_phase_encoding_scenario :
  healthy (packets Scenario.old_client) /\
  appended (writeRows (Scenario.select RState_Rows)) Scenario.old_client =
    [Payload [1; 49]; Payload [251]] /\
  common.Datas (rowBuf [MakeRaw []]) = [0] /\
  decode_row (common.Datas (rowBuf [MakeRaw [49]; NULL; MakeRaw []])) =
    Some [Some [49]; None; Some []].
Proof.
  split; [constructor|].
  destruct (rows_phase_encoding (Scenario.select RState_Rows) Scenario.old_client)
    as (A & _ & _ & _ & B & _ & D); [constructor|].
  split; [exact A|]. split; [exact (B (MakeRaw []) eq_refl)|].
  apply (D [MakeRaw [49]; NULL; MakeRaw []]).
  repeat (constructor; try (right; reflexivity); try (left; reflexivity)).
Defined.

(** ** The error writer *)

Lemma doPrintf_plain (text : string) :
  fmt.plain text = true -> fmt.doPrintf fmt.Text text = text.
Proof.
  induction text as [|c text IH]; simpl; [reflexivity|].
  destruct (Ascii.eqb c "%"); simpl; [discriminate|].
  intros P. now rewrite IH.
Qed.

(** X2: a protocol error passes to the packet as it is: on a transport
    that does not fail, one error packet with the error's own code, state
    and message. *)
Lemma writeErrFromError_SQLError (se : sqldb.SQLError) (s : Session) :
  healthy (packets s) ->
  fst (writeErrFromError (SQLErr se) s) = None /\
  sent (writeErrFromError (SQLErr se)) s =
    [[ERR (sqldb.Num se) (sqldb.State se) (sqldb.Message se)]].
Proof.
  intros H. unfold sent, writeErrFromError, on_packets, WriteERR, invoke.
  rewrite (healthy_hd _ H). simpl. now rewrite skipn_length_app.
Qed.

(** X3: any other error whose text has no percent sign: on a transport
    that does not fail, one error packet with the generic code and state
    and the text as the message. *)
Lemma writeErrFromError_plain (text : string) (s : Session) :
  healthy (packets s) -> fmt.plain text = true ->
  fst (writeErrFromError (ErrorString text) s) = None /\
  sent (writeErrFromError (ErrorString text)) s = [[ERR 1105 "HY000" text]].
Proof.
  intros H P. unfold sent, writeErrFromError, on_packets, WriteERR, invoke.
  rewrite (healthy_hd _ H). simpl. rewrite skipn_length_app.
  now rewrite (doPrintf_plain _ P).
Qed.

(** Any other error: the packet is written with the generic code and
    state, and its message is the text taken as a format with no operand. *)
Lemma writeErrFromError_other (text : string) (s : Session) :
  healthy (packets s) ->
  fst (writeErrFromError (ErrorString text) s) = None /\
  sent (writeErrFromError (ErrorString text)) s =
    [[ERR sqldb.ER_UNKNOWN_ERROR sqldb.SQLSTATE_UNKNOWN (fmt.doPrintf fmt.Text text)]].
Proof.
  intros H. unfold sent, writeErrFromError, on_packets, WriteERR, invoke.
  rewrite (healthy_hd _ H). simpl. now rewrite skipn_length_app.
Qed.

(** C7 on the code: an error that is no [*sqldb.SQLError] and whose text
    ends in a percent sign.  Its text reaches [WriteERR] in the place of
    the format, so the message of the packet is not the text. *)
Theorem writeErrFromError_percent :
  sent (writeErrFromError (ErrorString "disk 100%")) Scenario.old_client =
    [[ERR 1105 "HY000" "disk 100%!(NOVERB)"]] /\
  sent (writeErrFromError (ErrorString "bad column %d")) Scenario.old_client =
    [[ERR 1105 "HY000" "bad column %!d(MISSING)"]] /\
  sent (writeErrFromError (SQLErr (sqldb.mkSQLError 1064 "42000" "disk 100%")))
    Scenario.old_client =
    [[ERR 1064 "42000" "disk 100%"]].
Proof. repeat split. Qed.

(** ** Close *)

Lemma Close_closed (s : Session) : conn s = None -> Close s = (s, []).
Proof. intros H. unfold Close. now rewrite H. Qed.

Lemma CloseTimes_closed (n : nat) (s : Session) :
  conn s = None -> CloseTimes n s = (s, []).
Proof.
  intros H. induction n as [|n IH]; simpl; [reflexivity|].
  now rewrite (Close_closed _ H), IH.
Qed.

Lemma Close_marks_absent (s : Session) : conn (fst (Close s)) = None.
Proof. unfold Close. destruct (conn s) eqn:E; simpl; [reflexivity|exact E]. Qed.

(** C9: the first [Close] calls [Close()] on the transport when there is
    one, once, and leaves the field nil; a [Close] after it changes nothing
    and closes nothing; so any number of calls, one at least, does what one
    call does, and no run of calls closes the transport twice.  [Close]
    returns no error: it has no result but the session. *)
Theorem Close_idempotent (s : Session) (n : nat) :
  conn (fst (Close s)) = None /\
  snd (Close s) = match conn s with Some c => [c] | None => [] end /\
  Close (fst (Close s)) = (fst (Close s), []) /\
  CloseTimes (S n) s = Close s /\
  (List.length (snd (CloseTimes n s)) <= 1)%nat.
Proof.
  assert (A := Close_marks_absent s).
  assert (T : forall k, CloseTimes (S k) s = Close s).
  { intros k. simpl. destruct (Close s) as [s1 c1] eqn:E. simpl in A.
    now rewrite (CloseTimes_closed k s1 A), app_nil_r. }
  split; [exact A|]. split; [|split; [|split]].
  - unfold Close. now destruct (conn s).
  - now apply Close_closed.
  - apply T.
  - destruct n as [|k]; [simpl; lia|]. rewrite T. unfold Close.
    destruct (conn s); simpl; lia.
Qed.

(** ** The lock *)

(** The steps of [Close] taken alone are the [Close] of the session. *)
Lemma Close_alone (s : Session) (closed : nat) :
  Threads.run (match conn s with Some _ => [0; 0; 0; 0; 0] | None => [0; 0; 0] end)%nat
    (Threads.view s closed [Threads.Close]) =
  Some (Threads.view (fst (Close s)) (List.length (snd (Close s)) + closed) [[]]).
Proof.
  unfold Threads.view, Close. destruct (conn s) eqn:E; simpl; rewrite ?E; reflexivity.
Qed.

(** C10 on the code: [Close] writes [s.conn] and takes the lock in shared
    mode, where [SetSchema] takes it in exclusive mode.  Two threads in
    [Close] are inside the lock together and both call [Close()] on the
    transport; a thread in [Addr] that saw the field non-nil calls
    [RemoteAddr()] on it after a thread in [Close] set it to nil. *)
Theorem Close_takes_the_shared_lock :
  existsb Threads.writes_field Threads.Close = true /\
  Threads.takes_shared Threads.Close = true /\
  Threads.takes_exclusive Threads.Close = false /\
  Threads.takes_exclusive (Threads.SetSchema "db") = true /\
  option_map (fun st => Threads.readers (Threads.mu st))
    (Threads.run [0; 1]%nat (Threads.start true [Threads.Close; Threads.Close])) = Some 2%nat /\
  option_map Threads.closes
    (Threads.run [0; 1; 0; 1; 0; 1; 0; 1; 0; 1]%nat
       (Threads.start true [Threads.Close; Threads.Close])) = Some 2%nat /\
  option_map Threads.panics
    (Threads.run [1; 1; 0; 0; 0; 0; 1]%nat
       (Threads.start true [Threads.Close; Threads.Addr])) = Some 1%nat.
Proof. repeat split. Qed.

(** *** What the lock does guarantee *)

Lemma well_locked_holds (prog : list Threads.Instr) (m : Threads.Mode) :
  Threads.well_locked m prog = true -> Threads.holds prog = m.
Proof.
  revert m. induction prog as [|ins rest IH]; intros m H.
  - now destruct m.
  - destruct ins; simpl in *;
      try (apply Bool.andb_true_iff in H; destruct H as [H1 H2]);
      try (now destruct m); try now apply IH.
Qed.

Lemma well_locked_skipn (n : nat) (rest : list Threads.Instr) (m : Threads.Mode) :
  existsb Threads.is_lock_op (firstn n rest) = false ->
  Threads.well_locked m rest = true ->
  Threads.well_locked m (skipn n rest) = true.
Proof.
  revert rest. induction n as [|n IH]; intros rest Hn Hw; [exact Hw|].
  destruct rest as [|ins rest]; [exact Hw|]. simpl in Hn.
  apply Bool.orb_false_iff in Hn. destruct Hn as [Hi Hn].
  simpl. apply IH; [exact Hn|].
  destruct ins; simpl in *; try discriminate; try exact Hw.
  apply Bool.andb_true_iff in Hw. now destruct Hw.
Qed.

Lemma count_mode_update (m : Threads.Mode) (i : nat) (old new : list Threads.Instr)
  (pool : list (list Threads.Instr)) :
  nth_error pool i = Some old ->
  (Threads.count_mode m (Threads.update i new pool)
     + (if Threads.Mode_eqb (Threads.holds old) m then 1 else 0)
   = Threads.count_mode m pool
     + (if Threads.Mode_eqb (Threads.holds new) m then 1 else 0))%nat.
Proof.
  unfold Threads.count_mode. revert i.
  induction pool as [|p pool IH]; intros i H.
  - now destruct i.
  - destruct i as [|i]; simpl in *.
    + inversion H; subst.
      destruct (Threads.Mode_eqb (Threads.holds old) m),
        (Threads.Mode_eqb (Threads.holds new) m); simpl; lia.
    + specialize (IH i H).
      destruct (Threads.Mode_eqb (Threads.holds p) m); simpl; lia.
Qed.

Lemma Forall_update {A : Type} (P : A -> Prop) (i : nat) (x : A) (l : list A) :
  Forall P l -> P x -> Forall P (Threads.update i x l).
Proof.
  intros H Hx. revert i. induction H as [|y l Hy Hl IH]; intros i.
  - destruct i; constructor.
  - destruct i as [|i]; simpl; constructor; try assumption. apply IH.
Qed.

Lemma nth_error_update_other {A : Type} (i j : nat) (x : A) (l : list A) :
  i <> j -> nth_error (Threads.update i x l) j = nth_error l j.
Proof.
  revert i j. induction l as [|y l IH]; intros i j H.
  - now destruct i.
  - destruct i, j; simpl; try reflexivity; try congruence. apply IH. congruence.
Qed.

(** Two threads in one mode count for two. *)
Lemma count_mode_two (m : Threads.Mode) (pool : list (list Threads.Instr))
  (i j : nat) (pi pj : list Threads.Instr) :
  i <> j ->
  nth_error pool i = Some pi -> Threads.holds pi = m ->
  nth_error pool j = Some pj -> Threads.holds pj = m ->
  (2 <= Threads.count_mode m pool)%nat.
Proof.
  intros Hij Hi Mi Hj Mj.
  assert (E : Threads.Mode_eqb m m = true) by now destruct m.
  set (away := match m with Threads.Outside => [Threads.RUnlock] | _ => [] end).
  assert (N : Threads.Mode_eqb (Threads.holds away) m = false) by now destruct m.
  pose proof (count_mode_update m i pi away pool Hi) as C1.
  pose proof (count_mode_update m j pj away (Threads.update i away pool)) as C2.
  rewrite nth_error_update_other in C2 by exact Hij. specialize (C2 Hj).
  rewrite Mi, E, N in C1. rewrite Mj, E, N in C2. lia.
Qed.

Lemma count_mode_one (m : Threads.Mode) (pool : list (list Threads.Instr))
  (i : nat) (pi : list Threads.Instr) :
  nth_error pool i = Some pi -> Threads.holds pi = m ->
  (1 <= Threads.count_mode m pool)%nat.
Proof.
  intros Hi Mi.
  assert (E : Threads.Mode_eqb m m = true) by now destruct m.
  set (away := match m with Threads.Outside => [Threads.RUnlock] | _ => [] end).
  assert (N : Threads.Mode_eqb (Threads.holds away) m = false) by now destruct m.
  pose proof (count_mode_update m i pi away pool Hi) as C1.
  rewrite Mi, E, N in C1. lia.
Qed.

Lemma consistent_start (open : bool) (pool : list (list Threads.Instr)) :
  Forall (fun prog => Threads.well_locked Threads.Outside prog = true) pool ->
  Threads.consistent (Threads.start open pool).
Proof.
  intros H. unfold Threads.consistent, Threads.start, Threads.count_mode; simpl.
  induction H as [|p pool Hp _ (IH1 & IH2 & IH3)]; simpl.
  - repeat split. constructor.
  - rewrite (well_locked_holds _ _ Hp). simpl. repeat split; auto.
    constructor; [now rewrite (well_locked_holds _ _ Hp)|exact IH1].
Qed.

Lemma nth_error_Forall {A : Type} (P : A -> Prop) (l : list A) (i : nat) (x : A) :
  Forall P l -> nth_error l i = Some x -> P x.
Proof.
  intros H Hn. rewrite Forall_forall in H. apply H. eapply nth_error_In, Hn.
Qed.

(** A thread moves from one mode to another and the lock's fields follow. *)
Lemma consistent_move (st : Threads.State) (i : nat) (old new : list Threads.Instr)
  (m' : Threads.RWMutex) (c : bool) (cl : nat) (sc : string) (pn : nat) :
  Threads.consistent st ->
  nth_error (Threads.threads st) i = Some old ->
  Threads.well_locked (Threads.holds new) new = true ->
  Threads.relock (Threads.holds old) (Threads.holds new) (Threads.mu st) m' ->
  Threads.consistent
    (Threads.mkState m' c cl sc pn (Threads.update i new (Threads.threads st))).
Proof.
  intros (Hw & Hr & Hx) Hn Hnew Hre.
  pose proof (count_mode_update Threads.Reading i old new _ Hn) as CR.
  pose proof (count_mode_update Threads.Writing i old new _ Hn) as CW.
  pose proof (count_mode_one _ _ _ _ Hn eq_refl) as Hone.
  unfold Threads.consistent. simpl.
  split; [now apply Forall_update|].
  unfold Threads.relock in Hre.
  destruct (Threads.holds old), (Threads.holds new); simpl in CR, CW;
    try contradiction;
    repeat match goal with
           | H : _ /\ _ |- _ => destruct H
           end;
    subst; simpl;
    destruct (Threads.writer (Threads.mu st)); try discriminate;
    repeat match goal with
           | H : _ /\ _ |- _ => destruct H
           end;
    repeat split; lia.
Qed.

(** Every step keeps the lock's fields and the threads' modes in line. *)
Lemma step_consistent (i : nat) (st st' : Threads.State) :
  Threads.consistent st -> Threads.step i st = Some st' -> Threads.consistent st'.
Proof.
  intros Hc Hs. unfold Threads.step in Hs.
  destruct (nth_error (Threads.threads st) i) as [prog|] eqn:Hn; [|discriminate].
  destruct prog as [|ins rest]; [discriminate|].
  destruct (Threads.exec ins st) as [st1|] eqn:He; [|discriminate].
  inversion Hs; subst st'; clear Hs.
  pose proof (nth_error_Forall _ _ _ _ (proj1 Hc) Hn) as Hwi.
  assert (T : Threads.threads st1 = Threads.threads st).
  { destruct ins; simpl in He;
      repeat match type of He with
             | (if ?b then _ else _) = _ => destruct b
             end; inversion He; reflexivity. }
  rewrite T.
  destruct ins; simpl in He, Hwi.
  - (* RLock *)
    destruct (Threads.writer (Threads.mu st)) eqn:W; [discriminate|].
    inversion He; subst st1; simpl.
    pose proof (well_locked_holds _ _ Hwi) as Hm.
    apply consistent_move with (old := Threads.RLock :: rest);
      [assumption|assumption|now rewrite Hm|].
    simpl. rewrite Hm. now split.
  - (* RUnlock *)
    inversion He; subst st1; simpl.
    pose proof (well_locked_holds _ _ Hwi) as Hm.
    apply consistent_move with (old := Threads.RUnlock :: rest);
      [assumption|assumption|now rewrite Hm|].
    simpl. now rewrite Hm.
  - (* Lock *)
    destruct (Threads.writer (Threads.mu st)) eqn:W; [discriminate|].
    destruct (Nat.eqb_spec (Threads.readers (Threads.mu st)) 0) as [Z0|Z0];
      [|discriminate].
    inversion He; subst st1; simpl.
    pose proof (well_locked_holds _ _ Hwi) as Hm.
    apply consistent_move with (old := Threads.Lock :: rest);
      [assumption|assumption|now rewrite Hm|].
    simpl. rewrite Hm. now repeat split.
  - (* Unlock *)
    inversion He; subst st1; simpl.
    pose proof (well_locked_holds _ _ Hwi) as Hm.
    apply consistent_move with (old := Threads.Unlock :: rest);
      [assumption|assumption|now rewrite Hm|].
    simpl. now rewrite Hm.
  - (* IfConnNil *)
    inversion He; subst st1; simpl.
    apply Bool.andb_true_iff in Hwi. destruct Hwi as [Hk Hwi].
    apply Bool.negb_true_iff in Hk.
    pose proof (well_locked_holds _ _ Hwi) as Hm.
    pose proof (well_locked_skipn skip rest _ Hk Hwi) as Hws.
    pose proof (well_locked_holds _ _ Hws) as Hms.
    destruct (Threads.conn st);
      (apply consistent_move with (old := Threads.IfConnNil skip :: rest);
       [assumption|assumption| |]);
      simpl; rewrite ?Hms; try assumption;
      now destruct (Threads.holds rest).
  - (* ConnClose *)
    pose proof (well_locked_holds _ _ Hwi) as Hm.
    destruct (Threads.conn st); inversion He; subst st1; simpl;
      (apply consistent_move with (old := Threads.ConnClose :: rest);
       [assumption|assumption|assumption|]);
      simpl; now destruct (Threads.holds rest).
  - (* ConnClear *)
    inversion He; subst st1; simpl.
    apply consistent_move with (old := Threads.ConnClear :: rest);
      [assumption|assumption|assumption|].
    simpl; now destruct (Threads.holds rest).
  - (* ConnRemoteAddr *)
    destruct (Threads.conn st) eqn:Cn; inversion He; subst st1; simpl; rewrite ?Cn;
      (apply consistent_move with (old := Threads.ConnRemoteAddr :: rest);
       [assumption|assumption|assumption|]);
      simpl; now destruct (Threads.holds rest).
  - (* SchemaStore *)
    inversion He; subst st1; simpl.
    apply consistent_move with (old := Threads.SchemaStore v :: rest);
      [assumption|assumption|assumption|].
    simpl; now destruct (Threads.holds rest).
  - (* FieldLoad *)
    inversion He; subst st1; simpl.
    apply consistent_move with (old := Threads.FieldLoad :: rest);
      [assumption|assumption|assumption|].
    simpl; now destruct (Threads.holds rest).
Qed.

Lemma run_consistent (schedule : list nat) (st st' : Threads.State) :
  Threads.consistent st -> Threads.run schedule st = Some st' -> Threads.consistent st'.
Proof.
  revert st. induction schedule as [|i schedule IH]; intros st Hc Hr; simpl in Hr.
  - now inversion Hr; subst.
  - destruct (Threads.step i st) as [st1|] eqn:Hs; [|discriminate].
    apply (IH st1); [eapply step_consistent; eassumption|exact Hr].
Qed.

(** The methods of session.go release what they take. *)
Lemma methods_well_locked (v : string) :
  Forall (fun prog => Threads.well_locked Threads.Outside prog = true)
    [Threads.Close; Threads.Addr; Threads.SetSchema v; Threads.Getter].
Proof. repeat constructor. Qed.

(** X1: the exclusive mode excludes: in every state the threads reach,
    under every schedule, while a thread is between [Lock] and [Unlock]
    (as in [SetSchema]) every other thread is outside the lock. *)
Theorem writer_excludes_every_thread
  (open : bool) (pool : list (list Threads.Instr)) (schedule : list nat)
  (st : Threads.State) (i j : nat) (pi pj : list Threads.Instr) :
  Forall (fun prog => Threads.well_locked Threads.Outside prog = true) pool ->
  Threads.run schedule (Threads.start open pool) = Some st ->
  nth_error (Threads.threads st) i = Some pi ->
  Threads.holds pi = Threads.Writing ->
  nth_error (Threads.threads st) j = Some pj ->
  j <> i ->
  Threads.holds pj = Threads.Outside.
Proof.
  intros Hp Hr Hi Mi Hj Hji.
  pose proof (run_consistent _ _ _ (consistent_start open pool Hp) Hr) as (_ & _ & Hx).
  pose proof (count_mode_one _ _ _ _ Hi Mi) as W1.
  destruct (Threads.writer (Threads.mu st)); [|lia].
  destruct Hx as [HW HR].
  destruct (Threads.holds pj) eqn:Mj; [reflexivity| |].
  - pose proof (count_mode_one _ _ _ _ Hj Mj). lia.
  - pose proof (count_mode_two _ _ _ _ _ _ Hji Hj Mj Hi Mi). lia.
Qed.

(** A thread in [SetSchema] holds the lock while a thread that wants to
    read the schema waits: it cannot take its first step. *)
Lemma writer_excludes_scenario :
  Threads.run [0; 0]%nat
    (Threads.start true [Threads.SetSchema "db"; Threads.Getter; Threads.Close]) =
    Some (Threads.mkState (Threads.mkRWMutex 0 true) true 0 "db" 0
            [[Threads.Unlock]; Threads.Getter; Threads.Close]) /\
  Threads.holds Threads.Getter = Threads.Outside.
Proof.
  split; [reflexivity|].
  apply (writer_excludes_every_thread true
           [Threads.SetSchema "db"; Threads.Getter; Threads.Close] [0; 0]%nat
           (Threads.mkState (Threads.mkRWMutex 0 true) true 0 "db" 0
              [[Threads.Unlock]; Threads.Getter; Threads.Close])
           0%nat 1%nat [Threads.Unlock] Threads.Getter);
    [repeat constructor|reflexivity|reflexivity|reflexivity|reflexivity|discriminate].
Defined.

Lemma writeErrFromError_plain_scenario :
  healthy (packets Scenario.old_client) /\
  sent (writeErrFromError Scenario.broken_pipe) Scenario.old_client =
    [[ERR 1105 "HY000" "write: broken pipe"]].
Proof.
  split; [constructor|].
  apply (writeErrFromError_plain "write: broken pipe" Scenario.old_client);
    [constructor|reflexivity].
Defined.

Lemma writeErrFromError_SQLError_scenario :
  healthy (packets Scenario.old_client) /\
  sent (writeErrFromError (SQLErr (sqldb.mkSQLError 1146 "42S02" "no such table %s")))
    Scenario.old_client =
    [[ERR 1146 "42S02" "no such table %s"]].
Proof.
  split; [constructor|].
  apply (writeErrFromError_SQLError (sqldb.mkSQLError 1146 "42S02" "no such table %s")
           Scenario.old_client). constructor.
Defined.

(** * More of the session *)

(** ** The writes touch the writer only *)














(** ** The flush comes last, whatever the transport does *)

Lemma buffering_push (c : Call) (ps : list Packet) :
  is_flush c = false -> buffering (on_packets (invoke c (push ps))).
Proof.
  intros Hc s. unfold on_packets, invoke.
  destruct (hd None (outcomes (packets s))); simpl.
  - exists [c], []. simpl. now rewrite Hc, app_nil_r.
  - exists [c], ps. simpl. now rewrite Hc.
Qed.

Lemma buffering_ok : buffering ok.
Proof. intros s. exists [], []. simpl. now rewrite !app_nil_r. Qed.

Lemma buffering_andThen (m k : M) : buffering m -> buffering k -> buffering (m ;; k).
Proof.
  intros Hm Hk s. unfold andThen.
  destruct (Hm s) as (cs & ps & C & F & W & B).
  destruct (m s) as [[e|] s1]; simpl in *.
  - now exists cs, ps.
  - destruct (Hk s1) as (cs' & ps' & C' & F' & W' & B').
    exists (cs ++ cs'), (ps ++ ps').
    rewrite C', C, W', W, B', B, forallb_app, F, F', !app_assoc. now repeat split.
Qed.

Lemma buffering_cond (test : Session -> bool) (m k : M) :
  buffering m -> buffering k -> buffering (fun s => if test s then m s else k s).
Proof. intros Hm Hk s. destruct (test s); [apply Hm|apply Hk]. Qed.

Lemma buffering_writeFields (r : Result) : buffering (writeFields r).
Proof.
  unfold writeFields. apply buffering_andThen.
  - now apply buffering_push.
  - apply (buffering_cond
             (fun s => Z.land (ClientFlags (auth s)) sqldb.CLIENT_DEPRECATE_EOF =? 0)
             (on_packets AppendEOF) ok).
    + now apply buffering_push.
    + apply buffering_ok.
Qed.

Lemma buffering_appendRows (rows : list (list Value)) : buffering (appendRows rows).
Proof.
  induction rows as [|row rows IH]; simpl; [apply buffering_ok|].
  apply buffering_andThen; [now apply buffering_push|exact IH].
Qed.

Lemma buffering_writeFinish (r : Result) : buffering (writeFinish r).
Proof.
  intros s. unfold writeFinish.
  destruct (Z.land (ClientFlags (auth s)) sqldb.CLIENT_DEPRECATE_EOF =? 0);
    now apply buffering_push.
Qed.

Lemma buffering_sequence (ms : list M) : Forall buffering ms -> buffering (sequence ms).
Proof.
  induction 1 as [|m ms Hm _ IH]; simpl;
    [apply buffering_ok|now apply buffering_andThen].
Qed.

Lemma buffering_phases (r : Result) : buffering (sequence (phases r)).
Proof.
  apply buffering_sequence. unfold phases.
  destruct (State r); repeat constructor;
    first [apply buffering_writeFields | apply buffering_appendRows
          | apply buffering_writeFinish].
Qed.

(** X5: a result with fields, in any state and whatever the transport
    does.  [writeResult] calls flush once at most, and only as its last
    call.  When it returns nil, the flush was called, nothing is left in
    the buffer, and the one batch it handed to the transport holds what
    was buffered before the call followed by what the call appended. *)
Theorem writeResult_flushes_last (sprint : Result -> string) (r : Result) (s : Session) :
  Fields r <> [] ->
  exists cs new,
    forallb (fun c => negb (is_flush c)) cs = true /\
    (called (writeResult sprint r) s = cs \/
     called (writeResult sprint r) s = cs ++ [CallFlush]) /\
    (fst (writeResult sprint r s) = None ->
     called (writeResult sprint r) s = cs ++ [CallFlush] /\
     buffered (packets (snd (writeResult sprint r s))) = [] /\
     sent (writeResult sprint r) s = [buffered (packets s) ++ new]).
Proof.
  intros HF. unfold called, sent.
  rewrite (writeResult_phases sprint r s HF). unfold andThen.
  destruct (buffering_phases r s) as (cs & ps & C & F & W & B).
  destruct (sequence (phases r) s) as [[e|] s1]; simpl in *.
  - exists cs, ps. rewrite C, skipn_length_app.
    split; [exact F|]. split; [now left|discriminate].
  - exists cs, ps. split; [exact F|].
    unfold flush, on_packets, Flush, invoke.
    destruct (hd None (outcomes (packets s1))); simpl;
      rewrite C, <- ?app_assoc, skipn_length_app.
    + split; [now right|discriminate].
    + split; [now right|]. intros _.
      rewrite W, B, skipn_length_app. now repeat split.
Qed.

(** A RowsOnly call that returns nil leaves nothing in the buffer. *)
Lemma writeResult_flushes_last_scenario :
  Fields (Scenario.select RState_Rows) <> [] /\
  fst (writeResult Scenario.sprint (Scenario.select RState_Rows) Scenario.old_client) = None /\
  buffered (packets (snd (writeResult Scenario.sprint (Scenario.select RState_Rows)
                            Scenario.old_client))) = [].
Proof.
  split; [discriminate|]. split; [reflexivity|].
  destruct (writeResult_flushes_last Scenario.sprint (Scenario.select RState_Rows)
              Scenario.old_client) as (cs & new & _ & _ & H); [discriminate|].
  apply H. reflexivity.
Defined.

(** ** Every state of a result *)

(** X6: a result with fields on a transport that does not fail, in each of
    the four states: [writeResult] returns nil, runs the phases of the
    state and no other (all three for None, the fields phase for
    FieldsOnly, the rows phase for RowsOnly, the finish phase for
    FinishedOnly), then flushes; the one batch it hands to the transport
    holds what was buffered, then what those phases emit. *)
Theorem writeResult_runs_the_phases_of_the_state
  (sprint : Result -> string) (r : Result) (s : Session) :
  Fields r <> [] -> healthy (packets s) ->
  let f := (appended (writeFields r) s, called (writeFields r) s) in
  let w := (appended (writeRows r) s, called (writeRows r) s) in
  let t := (appended (writeFinish r) s, called (writeFinish r) s) in
  let ran :=
    match State r with
    | RState_None => (fst f ++ fst w ++ fst t, snd f ++ snd w ++ snd t)
    | RState_Fields => f
    | RState_Rows => w
    | RState_Finished => t
    end in
  fst (writeResult sprint r s) = None /\
  sent (writeResult sprint r) s = [buffered (packets s) ++ fst ran] /\
  called (writeResult sprint r) s = snd ran ++ [CallFlush] /\
  buffered (packets (snd (writeResult sprint r s))) = [].
Proof.
  intros HF H f w t ran. subst f w t ran.
  rewrite (appended_writeFields _ _ H), (appended_writeRows _ _ H),
    (appended_writeFinish _ _ H).
  rewrite (called_grow _ _ _ _ _ (writeFields_healthy r s H)),
    (called_grow _ _ _ _ _ (writeRows_healthy r s H)),
    (called_grow _ _ _ _ _ (writeFinish_healthy r s H)).
  unfold sent, called, writeResult. rewrite (nonempty_length _ HF).
  destruct (State r); unfold andThen; simpl fst; simpl snd.
  - rewrite (writeFields_healthy _ _ H).
    rewrite writeRows_healthy by now apply healthy_grow.
    rewrite grow_grow.
    rewrite writeFinish_healthy by now apply healthy_grow.
    rewrite grow_grow, flush_healthy by now apply healthy_grow.
    simpl. rewrite <- !app_assoc.
    rewrite (skipn_length_app (wire (packets s))), (skipn_length_app (calls (packets s))).
    repeat split; try reflexivity; unfold fields_calls; simpl; now rewrite <- ?app_assoc.
  - rewrite (writeFields_healthy _ _ H), flush_healthy by now apply healthy_grow.
    simpl. rewrite <- ?app_assoc.
    rewrite (skipn_length_app (wire (packets s))), (skipn_length_app (calls (packets s))).
    repeat split; try reflexivity; unfold fields_calls; simpl; now rewrite <- ?app_assoc.
  - rewrite (writeRows_healthy _ _ H), flush_healthy by now apply healthy_grow.
    simpl. rewrite <- ?app_assoc.
    rewrite (skipn_length_app (wire (packets s))), (skipn_length_app (calls (packets s))).
    repeat split; try reflexivity; unfold fields_calls; simpl; now rewrite <- ?app_assoc.
  - rewrite (writeFinish_healthy _ _ H), flush_healthy by now apply healthy_grow.
    simpl. rewrite <- ?app_assoc.
    rewrite (skipn_length_app (wire (packets s))), (skipn_length_app (calls (packets s))).
    repeat split; try reflexivity; unfold fields_calls; simpl; now rewrite <- ?app_assoc.
Qed.

(** A FinishedOnly call to a client with the deprecate-EOF capability. *)
Lemma writeResult_runs_the_phases_scenario :
  healthy (packets Scenario.new_client) /\
  sent (writeResult Scenario.sprint (Scenario.with_warnings RState_Finished))
    Scenario.new_client = [[OKWithEOFHeader 0 0 2 5]] /\
  called (writeResult Scenario.sprint (Scenario.with_warnings RState_Finished))
    Scenario.new_client = [CallAppendOKWithEOFHeader; CallFlush].
Proof.
  split; [constructor|].
  destruct (writeResult_runs_the_phases_of_the_state Scenario.sprint
              (Scenario.with_warnings RState_Finished) Scenario.new_client)
    as (_ & S1 & C1 & _); [discriminate|constructor|].
  split; [exact S1|exact C1].
Defined.

(** ** Where a phase stops *)

Lemma appendRows_stops (before after : list (list Value)) (row : list Value)
  (e : error) (os : list (option error)) (s : Session) :
  outcomes (packets s) = repeat None (List.length before) ++ Some e :: os ->
  appendRows (before ++ row :: after) s =
    (Some e,
     set_packets s
       (mkPackets
          (buffered (packets s) ++
             map (fun row => Payload (common.Datas (rowBuf row))) before)
          (wire (packets s)) os
          (calls (packets s) ++ repeat CallAppend (S (List.length before))))).
Proof.
  revert s. induction before as [|b before IH]; intros s Ho; simpl in *.
  - unfold andThen, Append. rewrite (invoke_fails _ _ _ _ _ Ho).
    now rewrite app_nil_r.
  - unfold andThen, Append, on_packets, invoke. rewrite Ho. simpl.
    rewrite IH by reflexivity. simpl. unfold set_packets. simpl.
    now rewrite <- !app_assoc.
Qed.

(** X7: the rows phase stops at the first row whose append fails.  When
    the appends of the rows [before] succeed and that of [row] fails with
    [e]: [writeRows] returns [e]; the packets of [before] are in the
    buffer, in order, and nothing else was added; it made one append call
    per row up to [row] and none for the rows [after]; nothing reached the
    transport. *)
Theorem writeRows_stops_at_the_failed_row
  (r : Result) (s : Session) (before after : list (list Value)) (row : list Value)
  (e : error) (os : list (option error)) :
  Rows r = before ++ row :: after ->
  outcomes (packets s) = repeat None (List.length before) ++ Some e :: os ->
  fst (writeRows r s) = Some e /\
  appended (writeRows r) s =
    map (fun row => Payload (common.Datas (rowBuf row))) before /\
  called (writeRows r) s = repeat CallAppend (S (List.length before)) /\
  sent (writeRows r) s = [] /\
  outcomes (packets (snd (writeRows r s))) = os.
Proof.
  intros HR Ho. unfold appended, called, sent, writeRows.
  rewrite HR, (appendRows_stops before after row e os s Ho). simpl.
  rewrite !skipn_length_app, skipn_all. now repeat split.
Qed.

Lemma writeRows_stops_scenario :
  Rows (Scenario.select RState_Rows) = [[MakeRaw [49]]] ++ [NULL] :: [] /\
  fst (writeRows (Scenario.select RState_Rows)
         (Scenario.session 0 2 [None; Some Scenario.broken_pipe; None])) =
    Some Scenario.broken_pipe /\
  appended (writeRows (Scenario.select RState_Rows))
    (Scenario.session 0 2 [None; Some Scenario.broken_pipe; None]) =
    [Payload [1; 49]] /\
  called (writeRows (Scenario.select RState_Rows))
    (Scenario.session 0 2 [None; Some Scenario.broken_pipe; None]) =
    [CallAppend; CallAppend].
Proof.
  split; [reflexivity|].
  destruct (writeRows_stops_at_the_failed_row (Scenario.select RState_Rows)
              (Scenario.session 0 2 [None; Some Scenario.broken_pipe; None])
              [[MakeRaw [49]]] [] [NULL] Scenario.broken_pipe [None]
              eq_refl eq_refl) as (E & A & C & _).
  split; [exact E|]. split; [exact A|exact C].
Defined.

(** X8: the fields phase, call by call.  When the append of the columns
    fails, [writeFields] returns that error and does not call for the
    marker.  When it succeeds and the client lacks the deprecate-EOF
    capability, the marker is called for next, and its failure comes back
    with the columns already in the buffer.  With the capability the
    marker is not called for, so the phase makes one call and cannot fail
    after it. *)
Theorem writeFields_call_by_call
  (r : Result) (s : Session) (e : error) (os : list (option error)) :
  (outcomes (packets s) = Some e :: os ->
   fst (writeFields r s) = Some e /\
   called (writeFields r) s = [CallAppendColumns] /\
   appended (writeFields r) s = []) /\
  (outcomes (packets s) = None :: Some e :: os -> legacy s = true ->
   fst (writeFields r s) = Some e /\
   called (writeFields r) s = [CallAppendColumns; CallAppendEOF] /\
   appended (writeFields r) s = map ColumnDef (Fields r)) /\
  (hd None (outcomes (packets s)) = None -> legacy s = false ->
   fst (writeFields r s) = None /\
   called (writeFields r) s = [CallAppendColumns] /\
   appended (writeFields r) s = map ColumnDef (Fields r)).
Proof.
  unfold appended, called, writeFields, andThen, AppendColumns, AppendEOF,
    on_packets, invoke, legacy.
  split; [|split].
  - intros Ho. rewrite Ho. simpl.
    rewrite skipn_length_app, skipn_all. now repeat split.
  - intros Ho L. rewrite Ho. simpl. rewrite L. simpl.
    rewrite <- app_assoc, !skipn_length_app. now repeat split.
  - intros Ho L. rewrite Ho. simpl. rewrite L. simpl.
    rewrite !skipn_length_app. now repeat split.
Qed.

(** ** The error writer, whatever the error *)

(** X9: [writeErrFromError] makes exactly one call on the writer, WriteERR,
    for every error and whatever the transport does; it appends nothing to
    the buffer.  When the call fails, the transport's error comes back and
    nothing is sent; when not, nil comes back and one error packet is
    sent, alone in its batch. *)
Theorem writeErrFromError_writes_once (err : error) (s : Session) :
  called (writeErrFromError err) s = [CallWriteERR] /\
  appended (writeErrFromError err) s = [] /\
  (forall e, hd None (outcomes (packets s)) = Some e ->
     fst (writeErrFromError err s) = Some e /\
     sent (writeErrFromError err) s = []) /\
  (hd None (outcomes (packets s)) = None ->
     fst (writeErrFromError err s) = None /\
     exists code state message,
       sent (writeErrFromError err) s = [[ERR code state message]]).
Proof.
  unfold called, appended, sent.
  destruct err as [se|text]; unfold writeErrFromError, on_packets, WriteERR, invoke;
    destruct (hd None (outcomes (packets s))) as [e0|]; simpl;
    rewrite ?skipn_length_app, ?skipn_all;
    (split; [reflexivity|]); (split; [reflexivity|]);
    (split; [intros e He; inversion He; subst; now split|]);
    intros He; try discriminate; (split; [reflexivity|]);
    eexists; eexists; eexists; reflexivity.
Qed.

(** ** The session from creation to teardown *)

(** X10: a new session has the id and transport it was given and an empty
    schema, and nothing written.  After [Close], once or more, [Addr]
    returns the word it keeps for a missing transport, where before it
    returned the peer's address; [Close] changes no other field: the id,
    schema, user, salt, scramble and charset read as before, and the
    writer, with whatever it has buffered, is as it was. *)
Theorem Close_leaves_the_rest (s : Session) (n : nat) :
  (forall ident c a g os,
     ID (newSession ident c a g os) = ident /\
     Addr (newSession ident c a g os) = RemoteAddr c /\
     Schema (newSession ident c a g os) = EmptyString /\
     emitted (packets (newSession ident c a g os)) = [] /\
     snd (Close (newSession ident c a g os)) = [c]) /\
  (forall c, conn s = Some c -> Addr s = RemoteAddr c) /\
  Addr (fst (CloseTimes (S n) s)) = "unknow"%string /\
  ID (fst (CloseTimes (S n) s)) = ID s /\
  Schema (fst (CloseTimes (S n) s)) = Schema s /\
  User (fst (CloseTimes (S n) s)) = User s /\
  Salt (fst (CloseTimes (S n) s)) = Salt s /\
  Scramble (fst (CloseTimes (S n) s)) = Scramble s /\
  Charset (fst (CloseTimes (S n) s)) = Charset s /\
  packets (fst (CloseTimes (S n) s)) = packets s.
Proof.
  split; [intros; now repeat split|].
  split; [intros c Hc; unfold Addr; now rewrite Hc|].
  assert (T : CloseTimes (S n) s = Close s).
  { simpl. pose proof (Close_marks_absent s) as A.
    destruct (Close s) as [s1 c1]. simpl in A.
    now rewrite (CloseTimes_closed n s1 A), app_nil_r. }
  rewrite T. unfold Close, Addr, ID, Schema, User, Salt, Scramble, Charset.
  destruct (conn s) eqn:E; simpl; rewrite ?E; now repeat split.
Qed.

(** ** Threads: no deadlock, no endless run *)

Lemma exec_threads (ins : Threads.Instr) (st st' : Threads.State) :
  Threads.exec ins st = Some st' -> Threads.threads st' = Threads.threads st.
Proof.
  intros He. destruct ins; simpl in He;
    repeat match type of He with
           | (if ?b then _ else _) = _ => destruct b
           end; inversion He; reflexivity.
Qed.

Lemma remaining_update (i : nat) (old new : list Threads.Instr)
  (pool : list (list Threads.Instr)) :
  nth_error pool i = Some old ->
  (Threads.remaining (Threads.update i new pool) + List.length old
   = Threads.remaining pool + List.length new)%nat.
Proof.
  revert i. induction pool as [|p pool IH]; intros i H.
  - now destruct i.
  - destruct i as [|i]; simpl in *.
    + inversion H; subst. lia.
    + specialize (IH i H). lia.
Qed.

Lemma continue_length (ins : Threads.Instr) (st : Threads.State) (rest : list Threads.Instr) :
  (List.length (Threads.continue ins st rest) <= List.length rest)%nat.
Proof.
  destruct ins; simpl; try lia.
  destruct (Threads.conn st); [lia|]. rewrite length_skipn. lia.
Qed.

Lemma step_remaining (i : nat) (st st' : Threads.State) :
  Threads.step i st = Some st' ->
  (Threads.remaining (Threads.threads st') < Threads.remaining (Threads.threads st))%nat.
Proof.
  unfold Threads.step. intros Hs.
  destruct (nth_error (Threads.threads st) i) as [[|ins rest]|] eqn:Hn; try discriminate.
  destruct (Threads.exec ins st) as [st1|] eqn:He; [|discriminate].
  inversion Hs; subst st'; simpl.
  rewrite (exec_threads _ _ _ He).
  pose proof (remaining_update i (ins :: rest) (Threads.continue ins st rest) _ Hn) as R.
  pose proof (continue_length ins st rest). simpl in R. lia.
Qed.



Lemma count_mode_exists (m : Threads.Mode) (pool : list (list Threads.Instr)) :
  (1 <= Threads.count_mode m pool)%nat ->
  exists i prog, nth_error pool i = Some prog /\ Threads.holds prog = m.
Proof.
  unfold Threads.count_mode. induction pool as [|p pool IH]; simpl; [lia|].
  destruct (Threads.Mode_eqb (Threads.holds p) m) eqn:E; simpl; intros H.
  - exists 0%nat, p. split; [reflexivity|].
    destruct (Threads.holds p), m; simpl in E; congruence.
  - destruct (IH H) as (i & prog & Hn & Hm). now exists (S i), prog.
Qed.

(** A thread inside the lock is never made to wait. *)
Lemma holder_steps (st : Threads.State) (i : nat) (prog : list Threads.Instr) :
  nth_error (Threads.threads st) i = Some prog ->
  Threads.holds prog <> Threads.Outside ->
  exists st', Threads.step i st = Some st'.
Proof.
  intros Hn Hm. unfold Threads.step. rewrite Hn.
  destruct prog as [|ins rest]; [now contradiction Hm|].
  destruct ins; simpl in Hm; try (now contradiction Hm); simpl;
    try (destruct (Threads.conn st)); eexists; reflexivity.
Qed.

(** With the lock free every thread that has a step left can take it. *)
Lemma free_steps (st : Threads.State) (i : nat) (ins : Threads.Instr)
  (rest : list Threads.Instr) :
  Threads.writer (Threads.mu st) = false ->
  Threads.readers (Threads.mu st) = 0%nat ->
  nth_error (Threads.threads st) i = Some (ins :: rest) ->
  exists st', Threads.step i st = Some st'.
Proof.
  intros W R Hn. unfold Threads.step. rewrite Hn.
  destruct ins; simpl; rewrite ?W, ?R; simpl;
    try (destruct (Threads.conn st)); eexists; reflexivity.
Qed.

Lemma unfinished_thread (st : Threads.State) :
  Threads.finished st = false ->
  exists i ins rest, nth_error (Threads.threads st) i = Some (ins :: rest).
Proof.
  unfold Threads.finished. induction (Threads.threads st) as [|p pool IH]; simpl;
    [discriminate|].
  destruct p as [|ins rest]; simpl.
  - intros H. destruct (IH H) as (i & ins & rest & Hn). now exists (S i), ins, rest.
  - intros _. now exists 0%nat, ins, rest.
Qed.

Lemma progress (st : Threads.State) :
  Threads.consistent st -> Threads.finished st = false ->
  exists i st', Threads.step i st = Some st'.
Proof.
  intros (Hw & Hr & Hx) Hf.
  destruct (Threads.writer (Threads.mu st)) eqn:W.
  - destruct Hx as [HW _].
    destruct (count_mode_exists Threads.Writing (Threads.threads st)) as (i & prog & Hn & Hm);
      [lia|].
    destruct (holder_steps st i prog Hn) as [st' Hs]; [congruence|]. now exists i, st'.
  - destruct (Threads.readers (Threads.mu st)) as [|k] eqn:R.
    + destruct (unfinished_thread st Hf) as (i & ins & rest & Hn).
      destruct (free_steps st i ins rest W R Hn) as [st' Hs]. now exists i, st'.
    + destruct (count_mode_exists Threads.Reading (Threads.threads st))
        as (i & prog & Hn & Hm); [lia|].
      destruct (holder_steps st i prog Hn) as [st' Hs]; [congruence|]. now exists i, st'.
Qed.

Lemma can_finish (n : nat) (st : Threads.State) :
  (Threads.remaining (Threads.threads st) <= n)%nat ->
  Threads.consistent st ->
  exists schedule st',
    Threads.run schedule st = Some st' /\
    Threads.finished st' = true /\ Threads.consistent st'.
Proof.
  revert st. induction n as [|n IH]; intros st Hn Hc;
    destruct (Threads.finished st) eqn:Hf;
    try (exists [], st; split; [reflexivity|split; assumption]).
  - destruct (progress st Hc Hf) as (i & st1 & Hs).
    pose proof (step_remaining _ _ _ Hs). lia.
  - destruct (progress st Hc Hf) as (i & st1 & Hs).
    pose proof (step_remaining _ _ _ Hs) as Hlt.
    destruct (IH st1) as (sch & st' & Hr & Hf' & Hc');
      [lia|eapply step_consistent; eassumption|].
    exists (i :: sch), st'. simpl. rewrite Hs. split; [exact Hr|split; assumption].
Qed.

Lemma finished_count (m : Threads.Mode) (pool : list (list Threads.Instr)) :
  forallb (fun prog => match prog with [] => true | _ => false end) pool = true ->
  m <> Threads.Outside -> Threads.count_mode m pool = 0%nat.
Proof.
  unfold Threads.count_mode. induction pool as [|p pool IH]; simpl; [reflexivity|].
  destruct p; [|discriminate]. simpl. intros H Hm.
  destruct m; simpl; try (now contradiction Hm); now apply IH.
Qed.

Lemma run_app (a b : list nat) (st : Threads.State) :
  Threads.run (a ++ b) st =
    match Threads.run a st with
    | Some st1 => Threads.run b st1
    | None => None
    end.
Proof.
  revert st. induction a as [|i a IH]; intros st; simpl; [reflexivity|].
  destruct (Threads.step i st); [apply IH|reflexivity].
Qed.

(** X12: the lock never deadlocks and is never left taken.  From every
    state that threads calling methods of the session reach, under every
    schedule, the run can go on until every thread has returned from its
    methods, and then no reader and no writer is left in the lock. *)
Theorem threads_never_deadlock
  (open : bool) (pool : list (list Threads.Instr)) (schedule : list nat)
  (st : Threads.State) :
  Forall (fun prog => Threads.well_locked Threads.Outside prog = true) pool ->
  Threads.run schedule (Threads.start open pool) = Some st ->
  exists more st',
    Threads.run (schedule ++ more) (Threads.start open pool) = Some st' /\
    Threads.finished st' = true /\
    Threads.mu st' = Threads.mkRWMutex 0 false.
Proof.
  intros Hp Hr.
  pose proof (run_consistent _ _ _ (consistent_start open pool Hp) Hr) as Hc.
  destruct (can_finish _ st (Nat.le_refl _) Hc) as (more & st' & Hm & Hf & Hc').
  exists more, st'. rewrite run_app, Hr. split; [exact Hm|]. split; [exact Hf|].
  destruct Hc' as (_ & HR & HX). unfold Threads.finished in Hf.
  rewrite (finished_count Threads.Reading _ Hf) in HR by discriminate.
  rewrite (finished_count Threads.Writing _ Hf) in HX by discriminate.
  destruct (Threads.mu st') as [rd wr]; simpl in *.
  destruct wr; [destruct HX; discriminate|]. now subst.
Qed.

(** A writer inside the lock, a reader and a [Close] waiting: the run can
    still be finished. *)
Lemma threads_never_deadlock_scenario :
  Threads.step 1 (Threads.mkState (Threads.mkRWMutex 0 true) true 0 EmptyString 0
                    [[Threads.SchemaStore "db"; Threads.Unlock];
                     Threads.Getter; Threads.Close]) = None /\
  exists more st',
    Threads.run ([0]%nat ++ more)
      (Threads.start true [Threads.SetSchema "db"; Threads.Getter; Threads.Close]) =
      Some st' /\
    Threads.finished st' = true /\
    Threads.mu st' = Threads.mkRWMutex 0 false.
Proof.
  split; [reflexivity|].
  apply (threads_never_deadlock true
           [Threads.SetSchema "db"; Threads.Getter; Threads.Close] [0]%nat
           (Threads.mkState (Threads.mkRWMutex 0 true) true 0 EmptyString 0
              [[Threads.SchemaStore "db"; Threads.Unlock];
               Threads.Getter; Threads.Close]));
    [repeat constructor|reflexivity].
Defined.

(** ** Threads: when [s.conn] is used while nil *)

Lemma guarded_skipn (n : nat) (rest : list Threads.Instr) :
  Threads.guarded n rest = Threads.guarded 0 (skipn n rest).
Proof.
  revert rest. induction n as [|n IH]; intros rest; [reflexivity|].
  destruct rest as [|x rest]; [reflexivity|]. simpl. apply IH.
Qed.

Lemma stable_skipn (n : nat) (rest : list Threads.Instr) :
  Threads.stable rest = true -> Threads.stable (skipn n rest) = true.
Proof.
  unfold Threads.stable. revert rest. induction n as [|n IH]; intros rest H; [exact H|].
  destruct rest as [|x rest]; [reflexivity|]. simpl in *.
  apply Bool.andb_true_iff in H. now apply IH.
Qed.

(** No thread sets [s.conn] to nil, and no thread is about to use it when
    it is nil. *)
Lemma calm_step (open : bool) (i : nat) (st st' : Threads.State) :
  Threads.conn st = open -> Threads.panics st = 0%nat ->
  Forall (fun p => Threads.stable p = true /\
                   (open = false -> Threads.guarded 0 p = true)) (Threads.threads st) ->
  Threads.step i st = Some st' ->
  Threads.conn st' = open /\ Threads.panics st' = 0%nat /\
  Forall (fun p => Threads.stable p = true /\
                   (open = false -> Threads.guarded 0 p = true)) (Threads.threads st').
Proof.
  intros Hc Hp Hf Hs. unfold Threads.step in Hs.
  destruct (nth_error (Threads.threads st) i) as [[|ins rest]|] eqn:Hn; try discriminate.
  destruct (Threads.exec ins st) as [st1|] eqn:He; [|discriminate].
  inversion Hs; subst st'; clear Hs. simpl.
  destruct (nth_error_Forall _ _ _ _ Hf Hn) as [Hst Hg].
  pose proof (exec_threads _ _ _ He) as T. rewrite T.
  unfold Threads.stable in Hst. simpl in Hst.
  apply Bool.andb_true_iff in Hst. destruct Hst as [Hi Hst].
  assert (Keep : forall new,
             Threads.stable new = true ->
             (open = false -> Threads.guarded 0 new = true) ->
             Forall (fun p => Threads.stable p = true /\
                              (open = false -> Threads.guarded 0 p = true))
               (Threads.update i new (Threads.threads st))).
  { intros new H1 H2. apply Forall_update; [exact Hf|now split]. }
  destruct ins; simpl in He, Hi, Hg; try discriminate.
  - (* RLock *)
    destruct (Threads.writer (Threads.mu st)); [discriminate|].
    inversion He; subst st1; simpl. repeat split; try assumption. now apply Keep.
  - (* RUnlock *)
    inversion He; subst st1; simpl. repeat split; try assumption. now apply Keep.
  - (* Lock *)
    destruct (Threads.writer (Threads.mu st) || negb (Threads.readers (Threads.mu st) =? 0)%nat);
      [discriminate|].
    inversion He; subst st1; simpl. repeat split; try assumption. now apply Keep.
  - (* Unlock *)
    inversion He; subst st1; simpl. repeat split; try assumption. now apply Keep.
  - (* IfConnNil *)
    inversion He; subst st1; simpl. repeat split; try assumption.
    rewrite Hc. destruct open.
    + apply Keep; [exact Hst|discriminate].
    + apply Keep; [now apply stable_skipn|].
      intros _. rewrite <- guarded_skipn. now apply Hg.
  - (* ConnClose *)
    rewrite Hc in He. destruct open; [|now specialize (Hg eq_refl)].
    inversion He; subst st1; simpl. repeat split; try assumption.
    apply Keep; [exact Hst|discriminate].
  - (* ConnRemoteAddr *)
    rewrite Hc in He. destruct open; [|now specialize (Hg eq_refl)].
    inversion He; subst st1; simpl. repeat split; try assumption.
    apply Keep; [exact Hst|discriminate].
  - (* SchemaStore *)
    inversion He; subst st1; simpl. repeat split; try assumption. now apply Keep.
  - (* FieldLoad *)
    inversion He; subst st1; simpl. repeat split; try assumption. now apply Keep.
Qed.

Lemma calm_run (open : bool) (schedule : list nat) (st st' : Threads.State) :
  Threads.conn st = open -> Threads.panics st = 0%nat ->
  Forall (fun p => Threads.stable p = true /\
                   (open = false -> Threads.guarded 0 p = true)) (Threads.threads st) ->
  Threads.run schedule st = Some st' ->
  Threads.conn st' = open /\ Threads.panics st' = 0%nat.
Proof.
  revert st. induction schedule as [|i schedule IH]; intros st Hc Hp Hf Hr; simpl in Hr.
  - inversion Hr; subst. now split.
  - destruct (Threads.step i st) as [st1|] eqn:Hs; [|discriminate].
    destruct (calm_step open i st st1 Hc Hp Hf Hs) as (Hc1 & Hp1 & Hf1).
    now apply (IH st1).
Qed.

(** X13: without a [Close] among them, threads calling [Addr],
    [SetSchema] and the getters never call a method on a nil [s.conn],
    under any schedule and whether the transport is there or not; and
    [s.conn] stays what it was. *)
Theorem accessors_never_use_a_nil_conn
  (open : bool) (pool : list (list Threads.Instr)) (schedule : list nat)
  (st : Threads.State) :
  Forall (fun p => Threads.is_method p /\ p <> Threads.Close) pool ->
  Threads.run schedule (Threads.start open pool) = Some st ->
  Threads.panics st = 0%nat /\ Threads.conn st = open.
Proof.
  intros Hp Hr.
  destruct (calm_run open schedule (Threads.start open pool) st) as [Hc Hn];
    [reflexivity|reflexivity| |exact Hr|now split].
  simpl. eapply Forall_impl; [|exact Hp].
  intros p [[->|[->|[[v ->]| ->]]] Hne]; [now contradiction Hne| | |]; now split.
Qed.

(** Two threads in [Addr] and one in [SetSchema] on a session whose
    transport is gone. *)
Lemma accessors_never_use_a_nil_conn_scenario :
  Threads.run [0; 1; 0; 1; 1; 0; 2; 2; 2]%nat
    (Threads.start false [Threads.Addr; Threads.Addr; Threads.SetSchema "db"]) =
    Some (Threads.mkState (Threads.mkRWMutex 0 false) false 0 "db" 0 [[]; []; []]) /\
  Threads.panics
    (Threads.mkState (Threads.mkRWMutex 0 false) false 0 "db" 0 [[]; []; []]) = 0%nat.
Proof.
  split; [reflexivity|].
  apply (accessors_never_use_a_nil_conn false
           [Threads.Addr; Threads.Addr; Threads.SetSchema "db"]
           [0; 1; 0; 1; 1; 0; 2; 2; 2]%nat
           (Threads.mkState (Threads.mkRWMutex 0 false) false 0 "db" 0 [[]; []; []])).
  - constructor; [split; [right; now left|discriminate]|].
    constructor; [split; [right; now left|discriminate]|].
    constructor; [|constructor].
    split; [right; right; left; now exists "db"%string|discriminate].
  - reflexivity.
Defined.

Lemma safe_skipn (c : bool) (n : nat) (rest : list Threads.Instr) :
  Threads.safe c n rest = Threads.safe c 0 (skipn n rest).
Proof.
  revert rest. induction n as [|n IH]; intros rest; [reflexivity|].
  destruct rest as [|x rest]; [reflexivity|]. simpl. apply IH.
Qed.

Lemma will_close_skipn (c : bool) (n : nat) (rest : list Threads.Instr) :
  Threads.will_close c n rest = Threads.will_close c 0 (skipn n rest).
Proof.
  revert rest. induction n as [|n IH]; intros rest; [reflexivity|].
  destruct rest as [|x rest]; [reflexivity|]. simpl. apply IH.
Qed.

(** Methods called one after the other by one thread: each tests
    [s.conn] before it uses it, and only the first [Close] finds it
    non-nil. *)
Lemma methods_safe (ms : list (list Threads.Instr)) :
  Forall Threads.is_method ms ->
  forall c,
    Threads.safe c 0 (concat ms) = true /\
    (Threads.will_close c 0 (concat ms) <= if c then 1 else 0)%nat.
Proof.
  induction 1 as [|m ms Hm _ IH]; intros c; [destruct c; simpl; split; auto|].
  pose proof (IH true) as [St Wt]. pose proof (IH false) as [Sf Wf].
  destruct Hm as [->|[->|[[v ->]| ->]]]; destruct c; simpl; split;
    try assumption; simpl in *; lia.
Qed.

Lemma alone_step (i : nat) (p : list Threads.Instr) (st st' : Threads.State) :
  Threads.threads st = [p] ->
  Threads.safe (Threads.conn st) 0 p = true ->
  Threads.panics st = 0%nat ->
  (Threads.closes st + Threads.will_close (Threads.conn st) 0 p <= 1)%nat ->
  Threads.step i st = Some st' ->
  exists p',
    Threads.threads st' = [p'] /\
    Threads.safe (Threads.conn st') 0 p' = true /\
    Threads.panics st' = 0%nat /\
    (Threads.closes st' + Threads.will_close (Threads.conn st') 0 p' <= 1)%nat.
Proof.
  intros Ht Hs Hp Hw Hstep. unfold Threads.step in Hstep. rewrite Ht in Hstep.
  destruct i as [|i]; [|destruct i; discriminate]. simpl in Hstep.
  destruct p as [|ins rest]; [discriminate|].
  destruct (Threads.exec ins st) as [st1|] eqn:He; [|discriminate].
  inversion Hstep; subst st'; clear Hstep. simpl.
  rewrite (exec_threads _ _ _ He), Ht. simpl.
  eexists. split; [reflexivity|].
  destruct ins; simpl in He, Hs, Hw.
  - destruct (Threads.writer (Threads.mu st)); [discriminate|].
    inversion He; subst st1; simpl. now repeat split.
  - inversion He; subst st1; simpl. now repeat split.
  - destruct (Threads.writer (Threads.mu st) || negb (Threads.readers (Threads.mu st) =? 0)%nat);
      [discriminate|].
    inversion He; subst st1; simpl. now repeat split.
  - inversion He; subst st1; simpl. now repeat split.
  - inversion He; subst st1; simpl.
    destruct (Threads.conn st); [now repeat split|].
    rewrite <- safe_skipn, <- will_close_skipn. now repeat split.
  - destruct (Threads.conn st); [|discriminate].
    inversion He; subst st1; simpl in *. repeat split; try assumption. lia.
  - inversion He; subst st1; simpl. now repeat split.
  - destruct (Threads.conn st) eqn:Cn; [|discriminate].
    inversion He; subst st1; simpl in *. rewrite Cn. now repeat split.
  - inversion He; subst st1; simpl. now repeat split.
  - inversion He; subst st1; simpl. now repeat split.
Qed.

(** X14: one thread calling methods of the session one after the other,
    in any order and any number of times ([Close], [Addr], [SetSchema],
    the getters): it never calls a method on a nil [s.conn], and the
    transport receives [Close()] once at most. *)
Theorem one_thread_is_safe
  (open : bool) (ms : list (list Threads.Instr)) (schedule : list nat)
  (st : Threads.State) :
  Forall Threads.is_method ms ->
  Threads.run schedule (Threads.start open [concat ms]) = Some st ->
  Threads.panics st = 0%nat /\ (Threads.closes st <= 1)%nat.
Proof.
  intros Hm Hr.
  assert (G : forall sch st0 p,
             Threads.threads st0 = [p] ->
             Threads.safe (Threads.conn st0) 0 p = true ->
             Threads.panics st0 = 0%nat ->
             (Threads.closes st0 + Threads.will_close (Threads.conn st0) 0 p <= 1)%nat ->
             Threads.run sch st0 = Some st ->
             Threads.panics st = 0%nat /\ (Threads.closes st <= 1)%nat).
  { induction sch as [|i sch IH]; intros st0 p Ht Hs Hp Hw Hrun; simpl in Hrun.
    - inversion Hrun; subst. split; [assumption|lia].
    - destruct (Threads.step i st0) as [st1|] eqn:Hs1; [|discriminate].
      destruct (alone_step i p st0 st1 Ht Hs Hp Hw Hs1) as (p' & Ht' & Hs' & Hp' & Hw').
      now apply (IH st1 p'). }
  destruct (methods_safe ms Hm open) as [S W].
  apply (G schedule (Threads.start open [concat ms]) (concat ms));
    try reflexivity; try assumption.
  simpl. destruct open; lia.
Qed.

(** [Close], [Addr], [Close] again and [Addr] again, by one thread. *)
Lemma one_thread_is_safe_scenario :
  Threads.run (repeat 0%nat 14)
    (Threads.start true
       [concat [Threads.Close; Threads.Addr; Threads.Close; Threads.Addr]]) =
    Some (Threads.mkState (Threads.mkRWMutex 0 false) false 1 EmptyString 0 [[]]) /\
  (Threads.closes
     (Threads.mkState (Threads.mkRWMutex 0 false) false 1 EmptyString 0 [[]]) <= 1)%nat.
Proof.
  split; [reflexivity|].
  apply (one_thread_is_safe true
           [Threads.Close; Threads.Addr; Threads.Close; Threads.Addr]
           (repeat 0%nat 14)
           (Threads.mkState (Threads.mkRWMutex 0 false) false 1 EmptyString 0 [[]])).
  - constructor; [now left|].
    constructor; [right; now left|].
    constructor; [now left|].
    constructor; [right; now left|constructor].
  - reflexivity.
Defined.
